(** * Loan calculator: the amortization and projection engine of script.js

    A shallow embedding of the numeric core of the loan calculator
    (EMI solver, payoff-horizon solver, amortization table, duration
    comparison, SIP projection) and the properties its specification states.

    Number model.  The specification describes every amount and rate as a
    decimal quantity, and the embedding follows it: a JavaScript number is
    modelled as an exact rational ([Q]), the arithmetic operators are the
    field operations, comparisons are the boolean comparisons of [Q], and
    [===] on numbers is [Qeq_bool].  The
    two non-finite values the source manipulates explicitly are modelled
    explicitly: the [Infinity] returned by [calculateMonthsToClose] is a
    constructor of its result type, and the [Infinity] that initialises
    [minInterest] is the [None] of an option.  A division whose divisor is
    zero is the only way exact arithmetic leaves the finite numbers, and the
    single [isFinite] test of the source is modelled by testing that
    divisor.

    Rounding of IEEE-754 doubles is outside this model.  The statements about
    loops, caps, guards, tables and selections are made for any payment, so
    they hold of whatever number the EMI solver returned; the statements
    that use the value of the EMI or SIP formula assume a [Math.pow] that is
    exact at whole exponents, and say so.  The two closed formulas are also
    where the doubles of the source leave exact arithmetic by more than
    rounding: once the rate is so small that [1 + monthlyRate] rounds to 1
    the powers cancel.  They are embedded a second time over binary64
    numbers (module [Binary64]) and evaluated there. *)

From Stdlib Require Import QArith Qround Qpower ZArith List Bool Lia Lqa.
From Stdlib Require Import Sorting.Sorted Sorting.Permutation.
From Corelib Require Import PrimFloat.
Import ListNotations.

Local Open Scope Q_scope.

(** ** Host primitives *)

(** [x < y] on numbers. *)
Definition Qlt_bool (x y : Q) : bool := negb (Qle_bool y x).

(** [Math.max(x, y)]. *)
Definition Math_max (x y : Q) : Q := if Qle_bool x y then y else x.

(** [Math.ceil(x)]: the least integer not below [x]. *)
Definition Math_ceil (x : Q) : Z := Qceiling x.

(** [Math.round(x)]: the nearest integer, halves rounded up. *)
Definition Math_round (x : Q) : Z := Qfloor (x + (1 # 2)).

(** [parseFloat(field) || 0]: a field that does not parse ([None], the NaN
    of the source) or parses to zero counts as zero. *)
Definition or_zero (field : option Q) : Q :=
  match field with
  | Some v => v
  | None => 0
  end.

(** The expression [annualRate / 100 / 12] that every entry point of the
    source binds to its local [monthlyRate]. *)
Definition monthlyRate_of (annualRate : Q) : Q := annualRate / 100 / 12.

(** [Math.pow(b, e)] at the exponents the rational model can express: an
    exponent that is a whole number.  It is the instance at which the
    statements about the EMI and SIP formulas are evaluated. *)
Definition pow_int (b e : Q) : Q := b ^ Qfloor e.

(** [durations.sort((a, b) => a - b)]: ascending order, equal keys kept in
    their order of arrival (insertion from the right is stable). *)
Fixpoint insert_asc (x : Q) (l : list Q) : list Q :=
  match l with
  | [] => [x]
  | y :: l' => if Qle_bool x y then x :: l else y :: insert_asc x l'
  end.

Definition sort_asc (l : list Q) : list Q := fold_right insert_asc [] l.

(** [durations.includes(x)]. *)
Definition includes (l : list Q) (x : Q) : bool := existsb (Qeq_bool x) l.

(** ** Payoff-horizon solver: [calculateMonthsToClose] *)

(** The number returned by [calculateMonthsToClose]: an integer month count
    or the [Infinity] of line 79. *)
Inductive months_result : Type :=
| Months (n : Z)
| Infinity.

(** One period of the payoff loop:
    [interest = remaining * monthlyRate; remaining = remaining + interest - emi]. *)
Definition close_step (monthlyRate emi remaining : Q) : Q :=
  let interest := remaining * monthlyRate in
  remaining + interest - emi.

(** The [while (remaining > 0 && months < 600)] loop of lines 85-95.  Each
    unit of [fuel] pays for one evaluation of the loop condition; [None]
    means the fuel ran out before the loop left. *)
Fixpoint close_loop (fuel : nat) (monthlyRate emi remaining : Q) (months : Z)
  : option Z :=
  match fuel with
  | O => None
  | S fuel' =>
      if Qlt_bool 0 remaining && (months <? 600)%Z then
        let remaining' := close_step monthlyRate emi remaining in
        let months' := (months + 1)%Z in
        if Qle_bool remaining' 0 then Some months'
        else close_loop fuel' monthlyRate emi remaining' months'
      else Some months
  end.

Definition calculateMonthsToClose (fuel : nat) (principal monthlyRate emi : Q)
  : option months_result :=
  if Qle_bool emi 0 || Qle_bool principal 0 then Some (Months 0)
  else if Qeq_bool monthlyRate 0 then Some (Months (Math_ceil (principal / emi)))
  else if Qle_bool emi (principal * monthlyRate) then Some Infinity
  else option_map Months (close_loop fuel monthlyRate emi principal 0).

(** The balance after [k] periods of the payoff loop. *)
Definition balance_after (monthlyRate emi principal : Q) (k : nat) : Q :=
  Nat.iter k (close_step monthlyRate emi) principal.

(** ** Amortization table: [generateReportTable] *)

(** One [<tr>] of the table (the month stands for the formatted date). *)
Record AmortizationRow : Type := mkRow {
  row_month : Z;
  row_emi : Q;
  row_interestPayment : Q;
  row_principalPayment : Q;
  row_remainingPrincipal : Q;
  row_priorInterest : Q
}.

(** One sample of the chart series. *)
Record ChartPoint : Type := mkChartPoint {
  chart_month : Z;
  chart_remainingPrincipal : Z;
  chart_newEmi : Z
}.

(** The three [let] accumulators of the loop. *)
Record ReportState : Type := mkReportState {
  remainingPrincipal : Q;
  totalInterestPaid : Q;
  totalPrincipalPaid : Q
}.

(** The body of the [for] loop, lines 470-514. *)
Definition report_month (emi monthlyRate totalMonths : Q) (month : Z)
    (st : ReportState) : AmortizationRow * option ChartPoint * ReportState :=
  let interestPayment := remainingPrincipal st * monthlyRate in
  let principalPayment :=
    if Qeq_bool (inject_Z month) totalMonths then remainingPrincipal st
    else emi - interestPayment in
  let remainingPrincipal' :=
    Math_max 0 (remainingPrincipal st - principalPayment) in
  let totalInterestPaid' := totalInterestPaid st + interestPayment in
  let totalPrincipalPaid' := totalPrincipalPaid st + principalPayment in
  let row :=
    mkRow month emi interestPayment principalPayment remainingPrincipal'
      (Math_max 0 (totalInterestPaid' - interestPayment)) in
  let sample :=
    if ((month mod 6 =? 0)%Z || Qeq_bool (inject_Z month) totalMonths
        || (month =? 1)%Z)%bool
    then
      let remainingMonths := totalMonths - inject_Z month in
      let newEmi :=
        if Qlt_bool 0 remainingMonths
        then (remainingPrincipal' / remainingMonths) * (1 + monthlyRate)
        else 0 in
      Some (mkChartPoint month (Math_round remainingPrincipal')
              (Math_round newEmi))
    else None in
  (row, sample,
   mkReportState remainingPrincipal' totalInterestPaid' totalPrincipalPaid').

(** [for (let month = 1; month <= totalMonths; month++)].  Each unit of
    [fuel] pays for one evaluation of the loop condition. *)
Fixpoint report_loop (fuel : nat) (emi monthlyRate totalMonths : Q)
    (month : Z) (st : ReportState)
  : option (list (AmortizationRow * option ChartPoint)) :=
  match fuel with
  | O => None
  | S fuel' =>
      if Qle_bool (inject_Z month) totalMonths then
        let '(row, sample, st') :=
          report_month emi monthlyRate totalMonths month st in
        match report_loop fuel' emi monthlyRate totalMonths (month + 1) st' with
        | Some rest => Some ((row, sample) :: rest)
        | None => None
        end
      else Some []
  end.

Record Report : Type := mkReport {
  report_rows : list AmortizationRow;
  report_chart : list ChartPoint
}.

Definition generateReportTable (fuel : nat)
    (principal emi monthlyRate totalMonths : Q) : option Report :=
  match report_loop fuel emi monthlyRate totalMonths 1
          (mkReportState principal 0 0) with
  | Some steps =>
      Some (mkReport (map fst steps)
              (flat_map (fun s => match snd s with
                                  | Some c => [c]
                                  | None => []
                                  end) steps))
  | None => None
  end.

(** The [remainingPrincipal] column never grows from a row to the next. *)
Definition balance_non_increasing (rows : list AmortizationRow) : Prop :=
  Sorted (fun r r' => row_remainingPrincipal r' <= row_remainingPrincipal r)
    rows.

(** ** Records of the duration comparison *)

Record DurationRow : Type := mkDurationRow {
  dur_duration : Q;
  dur_emi : Q;
  dur_interest : Q;
  dur_total : Q;
  dur_isSelected : bool;
  dur_isBest : bool
}.

(** [bestOption]: [{duration, emi, interest, total}]. *)
Record BestOption : Type := mkBestOption {
  best_duration : Q;
  best_emi : Q;
  best_interest : Q;
  best_total : Q
}.

(** The variables the [forEach] callback closes over; [cmp_minInterest] is
    [None] while it still holds its initial [Infinity]. *)
Record CompareState : Type := mkCompareState {
  cmp_rows : list DurationRow;
  cmp_bestOption : option BestOption;
  cmp_minInterest : option Q
}.

Record Tab1Result : Type := mkTab1Result {
  t1_totalYears : Q;
  t1_emi : Q;
  t1_totalInterest : Q;
  t1_totalAmount : Q;
  t1_avgInterestPerMonth : Q;
  t1_avgPrincipalPerMonth : Q;
  t1_table : list DurationRow;
  t1_bestOption : option BestOption;
  t1_savingsVsSelected : option Q
}.

Record Tab4Result : Type := mkTab4Result {
  t4_totalMonths : Z;
  t4_maturityValue : Q;
  t4_totalInvested : Q;
  t4_expectedReturns : Q
}.

Section Engine.

(** [Math.pow], the one host primitive that leaves the rationals. *)
Variable Math_pow : Q -> Q -> Q.

(** ** EMI solver: [calculateEMI], [calculateTotalInterest] *)

(** The local [numberOfMonths] of [calculateEMI]. *)
Definition numberOfMonths (years : Q) : Q := years * 12.

Definition calculateEMI (principal annualRate years : Q) : Q :=
  if Qle_bool principal 0 || Qlt_bool annualRate 0 || Qle_bool years 0 then 0
  else
    let monthlyRate := monthlyRate_of annualRate in
    if Qeq_bool monthlyRate 0 then principal / numberOfMonths years
    else
      let emi :=
        (principal * monthlyRate
         * Math_pow (1 + monthlyRate) (numberOfMonths years))
        / (Math_pow (1 + monthlyRate) (numberOfMonths years) - 1) in
      (* isFinite(emi): in exact arithmetic the quotient is finite unless
         its divisor is zero *)
      if Qeq_bool (Math_pow (1 + monthlyRate) (numberOfMonths years) - 1) 0
      then 0
      else emi.

Definition calculateTotalInterest (principal emi years : Q) : Q :=
  (emi * years * 12) - principal.

(** ** Report for a duration: [generateAmortizationReportForDuration] *)

(** The table behind a Report button: the EMI of the duration, laid out over
    [years * 12] months. *)
Definition generateAmortizationReportForDuration (fuel : nat)
    (principal annualRate years : Q) : option Report :=
  let emi := calculateEMI principal annualRate years in
  let monthlyRate := monthlyRate_of annualRate in
  let totalMonths := years * 12 in
  generateReportTable fuel principal emi monthlyRate totalMonths.

(** ** Duration comparison: [calculateTab1] *)

(** The callback of [durations.forEach], lines 155-193. *)
Definition compare_duration (principal interest totalYears : Q)
    (st : CompareState) (duration : Q) : CompareState :=
  if Qle_bool duration totalYears then
    let durationEMI := calculateEMI principal interest duration in
    let durationInterest :=
      calculateTotalInterest principal durationEMI duration in
    let durationTotal := principal + durationInterest in
    let isSelected := Qeq_bool duration totalYears in
    let isBest :=
      match cmp_minInterest st with
      | None => true
      | Some minInterest => Qlt_bool durationInterest minInterest
      end in
    mkCompareState
      (cmp_rows st ++
       [mkDurationRow duration durationEMI durationInterest durationTotal
          isSelected isBest])
      (if isBest
       then Some (mkBestOption duration durationEMI durationInterest
                    durationTotal)
       else cmp_bestOption st)
      (if isBest then Some durationInterest else cmp_minInterest st)
  else st.

(** The candidate list of lines 144-149. *)
Definition candidate_durations (totalYears : Q) : list Q :=
  let durations := [5; 10; 15; 20; 25] in
  sort_asc (if includes durations totalYears then durations
            else durations ++ [totalYears]).

(** [calculateTab1] on the parsed form fields; [None] is an [alert] followed
    by [return]. *)
Definition calculateTab1 (principal1 interest1 years1 months1 : option Q)
  : option Tab1Result :=
  match principal1, interest1 with
  | Some principal, Some interest =>
      let years := or_zero years1 in
      let months := or_zero months1 in
      if Qle_bool principal 0 || Qlt_bool interest 0 then None
      else
        let totalYears := years + (months / 12) in
        if Qle_bool totalYears 0 then None
        else
          let emi := calculateEMI principal interest totalYears in
          let totalInterest :=
            calculateTotalInterest principal emi totalYears in
          let totalAmount := principal + totalInterest in
          let avgInterestPerMonth := totalInterest / (totalYears * 12) in
          let avgPrincipalPerMonth := emi - avgInterestPerMonth in
          let final :=
            fold_left (compare_duration principal interest totalYears)
              (candidate_durations totalYears)
              (mkCompareState [] None None) in
          Some (mkTab1Result totalYears emi totalInterest totalAmount
                  avgInterestPerMonth avgPrincipalPerMonth
                  (cmp_rows final) (cmp_bestOption final)
                  (match cmp_bestOption final, cmp_minInterest final with
                   | Some _, Some minInterest =>
                       Some (minInterest - (emi * totalYears * 12 - principal))
                   | _, _ => None
                   end))
  | _, _ => None
  end.

(** ** SIP projection: [calculateSIPReturns], [calculateTab4] *)

Definition calculateSIPReturns (monthlyAmount annualRate months : Q) : Q :=
  let monthlyRate := monthlyRate_of annualRate in
  if Qeq_bool monthlyRate 0 then monthlyAmount * months
  else
    monthlyAmount *
    (((Math_pow (1 + monthlyRate) months - 1) / monthlyRate)
     * (1 + monthlyRate)).

(** [calculateTab4] up to the summary it displays and stores in
    [window.tab4Data]. *)
Definition calculateTab4 (sipAmount1 sipRate1 sipYears1 sipMonths1 : option Q)
  : option Tab4Result :=
  match sipAmount1, sipRate1 with
  | Some sipAmount, Some sipRate =>
      let sipYears := or_zero sipYears1 in
      let sipMonths := or_zero sipMonths1 in
      if Qle_bool sipAmount 0 || Qlt_bool sipRate 0 then None
      else
        let totalYears := sipYears + (sipMonths / 12) in
        if Qle_bool totalYears 0 then None
        else
          let totalMonths := Math_round (totalYears * 12) in
          let maturityValue :=
            calculateSIPReturns sipAmount sipRate (inject_Z totalMonths) in
          let totalInvested := sipAmount * inject_Z totalMonths in
          let expectedReturns := maturityValue - totalInvested in
          Some (mkTab4Result totalMonths maturityValue totalInvested
                  expectedReturns)
  | _, _ => None
  end.

End Engine.

(** ** Statement of the selection rule *)

(** The [bestOption] object built from a table row. *)
Definition as_best (row : DurationRow) : BestOption :=
  mkBestOption (dur_duration row) (dur_emi row) (dur_interest row)
    (dur_total row).

(** [best] is the first row of [rows] with the least interest: every row
    before it has strictly more interest, every row after it at least as
    much. *)
Definition first_minimum (rows : list DurationRow) (best : DurationRow)
  : Prop :=
  exists before after,
    rows = before ++ best :: after
    /\ Forall (fun row => dur_interest best < dur_interest row) before
    /\ Forall (fun row => dur_interest best <= dur_interest row) after.

(** A row of the table carries the EMI of its duration and the interest
    [emi * years * 12 - principal]. *)
Definition row_computed (Math_pow : Q -> Q -> Q) (principal interest : Q)
    (row : DurationRow) : Prop :=
  dur_emi row = calculateEMI Math_pow principal interest (dur_duration row)
  /\ dur_interest row = dur_emi row * dur_duration row * 12 - principal.

(** The state of the [forEach] after some candidates: nothing seen yet, or
    [bestOption] and [minInterest] describe the first minimum of the rows. *)
Definition comparison_invariant (st : CompareState) : Prop :=
  (cmp_rows st = [] /\ cmp_bestOption st = None /\ cmp_minInterest st = None)
  \/ exists best,
       first_minimum (cmp_rows st) best
       /\ cmp_bestOption st = Some (as_best best)
       /\ cmp_minInterest st = Some (dur_interest best).

(** ** The rest of the engine *)

(** [Math.floor(x)]. *)
Definition Math_floor (x : Q) : Z := Qfloor x.

(** What a handler does: it shows a result, or it raises an [alert] and
    returns, or (in the model only) it runs out of fuel. *)
Inductive outcome (A : Type) : Type :=
| Shown (a : A)
| Alerted
| Starved.

Arguments Shown {A} a.
Arguments Alerted {A}.
Arguments Starved {A}.

(** ** Remaining balance after some months: [calculateRemainingLoan] *)

(** The [for (let i = 0; i < months; i++)] loop of lines 56-62. *)
Fixpoint remaining_loop (fuel : nat) (monthlyRate emi months : Q) (i : Z)
    (remaining : Q) : option Q :=
  match fuel with
  | O => None
  | S fuel' =>
      if Qlt_bool (inject_Z i) months then
        let interest := remaining * monthlyRate in
        let remaining' := remaining + interest - emi in
        if Qle_bool remaining' 0 then Some 0
        else remaining_loop fuel' monthlyRate emi months (i + 1) remaining'
      else Some (Math_max 0 remaining)
  end.

Definition calculateRemainingLoan (fuel : nat)
    (principal monthlyRate emi months : Q) : option Q :=
  if Qeq_bool monthlyRate 0 then Some (Math_max 0 (principal - (emi * months)))
  else remaining_loop fuel monthlyRate emi months 0 principal.

(** ** Numbers that may be infinite *)

(** The values of the expressions of the remaining-loan tab that involve the
    month count, which may be [Infinity]. *)
Inductive jsnum : Type :=
| Num (q : Q)
| PosInfinity
| NegInfinity
| NaN.

Definition months_number (m : months_result) : jsnum :=
  match m with
  | Months n => Num (inject_Z n)
  | Infinity => PosInfinity
  end.

(** [x * y]. *)
Definition jsnum_mul (x y : jsnum) : jsnum :=
  let signed (q : Q) (pos : bool) : jsnum :=
    if Qeq_bool q 0 then NaN
    else if Bool.eqb (Qlt_bool 0 q) pos then PosInfinity else NegInfinity in
  match x, y with
  | NaN, _ | _, NaN => NaN
  | Num a, Num b => Num (a * b)
  | Num a, PosInfinity | PosInfinity, Num a => signed a true
  | Num a, NegInfinity | NegInfinity, Num a => signed a false
  | PosInfinity, PosInfinity | NegInfinity, NegInfinity => PosInfinity
  | PosInfinity, NegInfinity | NegInfinity, PosInfinity => NegInfinity
  end.

(** [x - y]. *)
Definition jsnum_sub (x y : jsnum) : jsnum :=
  match x, y with
  | NaN, _ | _, NaN => NaN
  | Num a, Num b => Num (a - b)
  | Num _, PosInfinity => NegInfinity
  | Num _, NegInfinity => PosInfinity
  | PosInfinity, Num _ | PosInfinity, NegInfinity => PosInfinity
  | NegInfinity, Num _ | NegInfinity, PosInfinity => NegInfinity
  | PosInfinity, PosInfinity | NegInfinity, NegInfinity => NaN
  end.

(** [x > 0]. *)
Definition jsnum_positive (x : jsnum) : bool :=
  match x with
  | Num a => Qlt_bool 0 a
  | PosInfinity => true
  | NegInfinity | NaN => false
  end.

(** ** Remaining-loan tab: [calculateTab2], [calculateAdditionalPayment] *)

(** [window.tab2Data], without the formatted [yearsToComplete]. *)
Record Tab2Data : Type := mkTab2Data {
  t2_principal : Q;
  t2_interest : Q;
  t2_monthlyRate : Q;
  t2_currentEmi : Q;
  t2_monthsToComplete : months_result;
  t2_totalInterest : jsnum
}.

Definition calculateTab2 (fuel : nat)
    (currentPrincipal currentInterest currentEmi : option Q)
  : outcome Tab2Data :=
  match currentPrincipal, currentInterest, currentEmi with
  | Some principal, Some interest, Some emi =>
      if Qle_bool principal 0 || Qlt_bool interest 0 || Qle_bool emi 0
      then Alerted
      else
        let monthlyRate := monthlyRate_of interest in
        if Qle_bool emi (principal * monthlyRate) && Qlt_bool 0 monthlyRate
        then Alerted
        else
          match calculateMonthsToClose fuel principal monthlyRate emi with
          | None => Starved
          | Some monthsToComplete =>
              let totalInterest :=
                jsnum_sub
                  (jsnum_mul (Num emi) (months_number monthsToComplete))
                  (Num principal) in
              Shown (mkTab2Data principal interest monthlyRate emi
                       monthsToComplete totalInterest)
          end
  | _, _, _ => Alerted
  end.

(** [window.tab2ReportData]. *)
Record Tab2ReportData : Type := mkTab2ReportData {
  rd_principal : Q;
  rd_annualRate : Q;
  rd_currentEmi : Q;
  rd_newEmi : Q;
  rd_monthlyRate : Q;
  rd_monthsToComplete : months_result;
  rd_newMonthsToComplete : months_result
}.

(** What [calculateAdditionalPayment] displays and stores, without the
    formatted years. *)
Record AdditionalResult : Type := mkAdditionalResult {
  add_newEmi : Q;
  add_newMonthsToComplete : months_result;
  add_newTotalInterest : jsnum;
  add_monthsSaved : jsnum;
  add_interestSaved : jsnum;
  add_beneficial : bool;
  add_reportData : Tab2ReportData
}.

Definition calculateAdditionalPayment (fuel : nat)
    (tab2Data : option Tab2Data) (additionalPayment : option Q)
  : outcome AdditionalResult :=
  match tab2Data with
  | None => Alerted
  | Some data =>
      match additionalPayment with
      | None => Alerted
      | Some additionalAmount =>
          if Qlt_bool additionalAmount 0 then Alerted
          else if Qeq_bool additionalAmount 0 then Alerted
          else
            let newEmi := t2_currentEmi data + additionalAmount in
            match calculateMonthsToClose fuel (t2_principal data)
                    (t2_monthlyRate data) newEmi with
            | None => Starved
            | Some newMonthsToComplete =>
                let newTotalInterest :=
                  jsnum_sub
                    (jsnum_mul (Num newEmi)
                       (months_number newMonthsToComplete))
                    (Num (t2_principal data)) in
                let monthsSaved :=
                  jsnum_sub (months_number (t2_monthsToComplete data))
                    (months_number newMonthsToComplete) in
                let interestSaved :=
                  jsnum_sub (t2_totalInterest data) newTotalInterest in
                Shown (mkAdditionalResult newEmi newMonthsToComplete
                         newTotalInterest monthsSaved interestSaved
                         (jsnum_positive interestSaved)
                         (mkTab2ReportData (t2_principal data)
                            (t2_interest data) (t2_currentEmi data) newEmi
                            (t2_monthlyRate data)
                            (t2_monthsToComplete data) newMonthsToComplete))
            end
      end
  end.

(** [generateRemainingLoanReport(reportType)]; [isCurrent] is the test
    [reportType === 'current'].  A month count of [Infinity] keeps the
    table loop running for ever: no fuel is enough. *)
Definition generateRemainingLoanReport (fuel : nat)
    (tab2ReportData : option Tab2ReportData) (isCurrent : bool)
  : outcome Report :=
  match tab2ReportData with
  | None => Alerted
  | Some data =>
      let emi := if isCurrent then rd_currentEmi data else rd_newEmi data in
      let totalMonths :=
        if isCurrent then rd_monthsToComplete data
        else rd_newMonthsToComplete data in
      match totalMonths with
      | Infinity => Starved
      | Months n =>
          match generateReportTable fuel (rd_principal data) emi
                  (rd_monthlyRate data) (inject_Z n) with
          | Some report => Shown report
          | None => Starved
          end
      end
  end.

(** ** Report of the calculated loan: [generateAmortizationReport] *)

(** [window.tab1Data]. *)
Record Tab1Data : Type := mkTab1Data {
  td_principal : Q;
  td_annualRate : Q;
  td_emi : Q;
  td_years : Q
}.


(** ** Hand-off to the remaining-loan tab *)

(** [!x] on a number: zero is falsy. *)
Definition falsy (x : Q) : bool := Qeq_bool x 0.

(** [calculateRemainingLoanBasic] on the form fields: the month count it
    displays, or [None] when it returns without displaying. *)
Definition calculateRemainingLoanBasic (fuel : nat)
    (currentPrincipal currentInterest currentEmi : option Q)
  : outcome (option months_result) :=
  match currentPrincipal, currentInterest, currentEmi with
  | Some principal, Some interestRate, Some currentEmi =>
      if falsy principal || falsy interestRate || falsy currentEmi
      then Shown None
      else
        let monthlyRate := monthlyRate_of interestRate in
        match calculateMonthsToClose fuel principal monthlyRate currentEmi with
        | Some monthsToClose => Shown (Some monthsToClose)
        | None => Starved
        end
  | _, _, _ => Shown None
  end.

(** The fields [navigateToRemainingLoanWithData] pre-fills and the month
    count displayed after it. *)
Record HandOff : Type := mkHandOff {
  ho_currentPrincipal : Q;
  ho_currentInterest : Q;
  ho_currentEmi : Z;
  ho_monthsToClose : option months_result
}.

Definition navigateToRemainingLoanWithData (fuel : nat)
    (tab1Data : option Tab1Data) : outcome HandOff :=
  match tab1Data with
  | None => Alerted
  | Some data =>
      let principal := td_principal data in
      let rate := td_annualRate data in
      let emi := td_emi data in
      if falsy principal || falsy rate || falsy emi then Alerted
      else
        let currentEmi := Math_round emi in
        match calculateRemainingLoanBasic fuel (Some principal) (Some rate)
                (Some (inject_Z currentEmi)) with
        | Shown months =>
            Shown (mkHandOff principal rate currentEmi months)
        | Alerted => Alerted
        | Starved => Starved
        end
  end.

(** ** Duration display *)

(** The years and months a duration is displayed with, lines 178-179 and
    202-203. *)
Definition duration_parts (duration : Q) : Z * Z :=
  let durationYears := Math_floor duration in
  let durationMonths :=
    Math_round ((duration - inject_Z durationYears) * 12) in
  (durationYears, durationMonths).

(** ** SIP comparison and existing amount *)

Record SipRow : Type := mkSipRow {
  sip_duration : Q;
  sip_months : Z;
  sip_invested : Q;
  sip_returns : Q;
  sip_maturity : Q;
  sip_isBest : bool
}.

(** [bestOption] of the SIP tab, without the formatted percentage. *)
Record SipBest : Type := mkSipBest {
  sipbest_duration : Q;
  sipbest_invested : Q;
  sipbest_returns : Q;
  sipbest_maturity : Q
}.

(** The variables the SIP [forEach] callback closes over; [sipcmp_maxReturns]
    is [None] while it still holds its initial [-Infinity]. *)
Record SipCompareState : Type := mkSipCompareState {
  sipcmp_rows : list SipRow;
  sipcmp_bestOption : option SipBest;
  sipcmp_maxReturns : option Q
}.

(** [window.tab4Data]. *)
Record Tab4Data : Type := mkTab4Data {
  t4d_sipAmount : Q;
  t4d_sipRate : Q;
  t4d_totalMonths : Z;
  t4d_maturityValue : Q;
  t4d_totalInvested : Q
}.

Record ExistingResult : Type := mkExistingResult {
  ex_existingMaturity : Q;
  ex_existingReturns : Q;
  ex_withoutInvested : Q;
  ex_withoutReturns : Q;
  ex_withoutMaturity : Q;
  ex_withInvested : Q;
  ex_withReturns : Q;
  ex_withMaturity : Q;
  ex_additionalBenefit : Q
}.

Section EngineRest.

Variable Math_pow : Q -> Q -> Q.

(** What [calculateTab1] stores in [window.tab1Data]. *)
Definition calculateTab1_data (principal1 interest1 years1 months1 : option Q)
  : option Tab1Data :=
  match principal1, interest1,
        calculateTab1 Math_pow principal1 interest1 years1 months1 with
  | Some principal, Some interest, Some res =>
      Some (mkTab1Data principal interest (t1_emi res) (t1_totalYears res))
  | _, _, _ => None
  end.

(** The callback of the SIP [durations.forEach], lines 732-769. *)
Definition sip_compare_duration (sipAmount sipRate totalYears : Q)
    (st : SipCompareState) (duration : Q) : SipCompareState :=
  if Qle_bool duration totalYears then
    let durationMonths := Math_round (duration * 12) in
    let durationMaturity :=
      calculateSIPReturns Math_pow sipAmount sipRate
        (inject_Z durationMonths) in
    let durationInvested := sipAmount * inject_Z durationMonths in
    let durationReturns := durationMaturity - durationInvested in
    let isBest :=
      match sipcmp_maxReturns st with
      | None => true
      | Some maxReturns => Qlt_bool maxReturns durationReturns
      end in
    mkSipCompareState
      (sipcmp_rows st ++
       [mkSipRow duration durationMonths durationInvested durationReturns
          durationMaturity isBest])
      (if isBest
       then Some (mkSipBest duration durationInvested durationReturns
                    durationMaturity)
       else sipcmp_bestOption st)
      (if isBest then Some durationReturns else sipcmp_maxReturns st)
  else st.

(** The comparison table and recommendation of [calculateTab4],
    lines 721-799, on the inputs its validation accepts. *)
Definition calculateTab4_comparison
    (sipAmount1 sipRate1 sipYears1 sipMonths1 : option Q)
  : option (list SipRow * option SipBest) :=
  match sipAmount1, sipRate1 with
  | Some sipAmount, Some sipRate =>
      let sipYears := or_zero sipYears1 in
      let sipMonths := or_zero sipMonths1 in
      if Qle_bool sipAmount 0 || Qlt_bool sipRate 0 then None
      else
        let totalYears := sipYears + (sipMonths / 12) in
        if Qle_bool totalYears 0 then None
        else
          let final :=
            fold_left (sip_compare_duration sipAmount sipRate totalYears)
              (candidate_durations totalYears)
              (mkSipCompareState [] None None) in
          Some (sipcmp_rows final, sipcmp_bestOption final)
  | _, _ => None
  end.

(** What [calculateTab4] stores in [window.tab4Data]. *)
Definition calculateTab4_data
    (sipAmount1 sipRate1 sipYears1 sipMonths1 : option Q) : option Tab4Data :=
  match sipAmount1, sipRate1,
        calculateTab4 Math_pow sipAmount1 sipRate1 sipYears1 sipMonths1 with
  | Some sipAmount, Some sipRate, Some res =>
      Some (mkTab4Data sipAmount sipRate (t4_totalMonths res)
              (t4_maturityValue res) (t4_totalInvested res))
  | _, _, _ => None
  end.

(** [calculateWithExistingAmount]; [None] is an [alert] followed by
    [return]. *)
Definition calculateWithExistingAmount (tab4Data : option Tab4Data)
    (existingSipAmount : option Q) : option ExistingResult :=
  match tab4Data with
  | None => None
  | Some data =>
      match existingSipAmount with
      | None => None
      | Some existingAmount =>
          if Qlt_bool existingAmount 0 then None
          else
            let monthlyRate := monthlyRate_of (t4d_sipRate data) in
            let months := inject_Z (t4d_totalMonths data) in
            let existingMaturity :=
              existingAmount * Math_pow (1 + monthlyRate) months in
            let existingReturns := existingMaturity - existingAmount in
            let withoutInvested := t4d_totalInvested data in
            let withoutReturns :=
              t4d_maturityValue data - t4d_totalInvested data in
            let withoutMaturity := t4d_maturityValue data in
            let withInvested := t4d_totalInvested data + existingAmount in
            let withReturns := withoutReturns + existingReturns in
            let withMaturity := t4d_maturityValue data + existingMaturity in
            let additionalBenefit := withMaturity - withoutMaturity in
            Some (mkExistingResult existingMaturity existingReturns
                    withoutInvested withoutReturns withoutMaturity
                    withInvested withReturns withMaturity additionalBenefit)
      end
  end.

End EngineRest.

(** ** Statements about the rest of the engine *)

(** The [bestOption] object built from a row of the SIP table. *)
Definition as_sip_best (row : SipRow) : SipBest :=
  mkSipBest (sip_duration row) (sip_invested row) (sip_returns row)
    (sip_maturity row).

(** [best] is the first row of [rows] with the greatest returns. *)
Definition first_maximum (rows : list SipRow) (best : SipRow) : Prop :=
  exists before after,
    rows = before ++ best :: after
    /\ Forall (fun row => sip_returns row < sip_returns best) before
    /\ Forall (fun row => sip_returns row <= sip_returns best) after.

Definition sip_comparison_invariant (st : SipCompareState) : Prop :=
  (sipcmp_rows st = [] /\ sipcmp_bestOption st = None
   /\ sipcmp_maxReturns st = None)
  \/ exists best,
       first_maximum (sipcmp_rows st) best
       /\ sipcmp_bestOption st = Some (as_sip_best best)
       /\ sipcmp_maxReturns st = Some (sip_returns best).

(** A row of the SIP table carries the rounded month count of its duration
    and the maturity value, investment and returns of that many months. *)
Definition sip_row_computed (Math_pow : Q -> Q -> Q) (sipAmount sipRate : Q)
    (row : SipRow) : Prop :=
  sip_months row = Math_round (sip_duration row * 12)
  /\ sip_maturity row
     = calculateSIPReturns Math_pow sipAmount sipRate
         (inject_Z (sip_months row))
  /\ sip_invested row = sipAmount * inject_Z (sip_months row)
  /\ sip_returns row = sip_maturity row - sip_invested row.

(** The last column of the table carries the interest of the rows above:
    [prior] on the first row, and on each next row what the row above
    carried plus the interest the row above paid. *)
Fixpoint interest_carried_forward (prior : Q) (rows : list AmortizationRow)
  : Prop :=
  match rows with
  | [] => True
  | row :: rest =>
      row_priorInterest row == prior
      /\ interest_carried_forward (prior + row_interestPayment row) rest
  end.

(** The balance column of the table, month by month: a period of the payoff
    loop, cut off at zero. *)
Definition clamped_balance_after (monthlyRate emi principal : Q) (k : nat)
  : Q :=
  Nat.iter k (fun b => Math_max 0 (close_step monthlyRate emi b)) principal.

(** ** The EMI and SIP formulas over binary64 numbers *)

(** [calculateEMI], [calculateTotalInterest] and [calculateSIPReturns] once
    more, operator for operator, over IEEE-754 binary64 numbers ([float]):
    [+], [-], [*], [/] round to nearest, the comparisons are those of the
    source ([===] is [=?]), and [isFinite] is the test of the source. *)
Module Binary64.

Local Open Scope float_scope.

(** [isFinite(x)]: neither NaN nor an infinity. *)
Definition isFinite (x : float) : bool := negb (is_nan x || is_infinity x).

Section Formulas.

(** [Math.pow] on doubles. *)
Variable Math_pow : float -> float -> float.

Definition calculateEMI (principal annualRate years : float) : float :=
  if (principal <=? 0) || (annualRate <? 0) || (years <=? 0) then 0
  else
    let monthlyRate := annualRate / 100 / 12 in
    let numberOfMonths := years * 12 in
    if monthlyRate =? 0 then principal / numberOfMonths
    else
      let emi :=
        (principal * monthlyRate * Math_pow (1 + monthlyRate) numberOfMonths)
        / (Math_pow (1 + monthlyRate) numberOfMonths - 1) in
      if isFinite emi then emi else 0.

Definition calculateTotalInterest (principal emi years : float) : float :=
  (emi * years * 12) - principal.

Definition calculateSIPReturns (monthlyAmount annualRate months : float)
  : float :=
  let monthlyRate := annualRate / 100 / 12 in
  if monthlyRate =? 0 then monthlyAmount * months
  else
    monthlyAmount *
    (((Math_pow (1 + monthlyRate) months - 1) / monthlyRate)
     * (1 + monthlyRate)).

End Formulas.

(** A power by repeated multiplication, for a whole exponent from 0 up to
    [fuel], NaN otherwise.  It stands for [Math.pow] where a statement about
    any [Math.pow] is evaluated, and agrees with it wherever every product
    is exact, as at base 1. *)
Fixpoint pow_loop (fuel : nat) (b e acc : float) : float :=
  match fuel with
  | O => nan
  | S fuel' =>
      if e =? 0 then acc
      else if e <? 1 then nan
      else pow_loop fuel' b (e - 1) (acc * b)
  end.

Definition pow_whole (b e : float) : float := pow_loop 1000 b e 1.

End Binary64.

(** * Properties *)

(** ** Boolean comparisons *)

Lemma Qle_bool_false (x y : Q) : Qle_bool x y = false <-> y < x.
Proof.
  pose proof (Qle_bool_iff x y) as Hiff.
  destruct (Qle_bool x y); split; intros H; try congruence.
  - exfalso. apply (Qlt_not_le _ _ H). apply Hiff. reflexivity.
  - apply Qnot_le_lt. intros Hle. apply Hiff in Hle. congruence.
Qed.

Lemma Qlt_bool_iff (x y : Q) : Qlt_bool x y = true <-> x < y.
Proof.
  unfold Qlt_bool. rewrite negb_true_iff. apply Qle_bool_false.
Qed.

Lemma Qlt_bool_false (x y : Q) : Qlt_bool x y = false <-> y <= x.
Proof.
  unfold Qlt_bool. rewrite negb_false_iff. apply Qle_bool_iff.
Qed.

Lemma Qeq_bool_false (x y : Q) : Qeq_bool x y = false <-> ~ x == y.
Proof.
  rewrite <- Qeq_bool_iff. destruct (Qeq_bool x y); intuition congruence.
Qed.

(** Turn the boolean tests of a goal or hypothesis into order facts. *)
Ltac case_le x y :=
  let E := fresh "Hle" in
  destruct (Qle_bool x y) eqn:E;
  [apply Qle_bool_iff in E | apply Qle_bool_false in E].

Ltac case_lt x y :=
  let E := fresh "Hlt" in
  destruct (Qlt_bool x y) eqn:E;
  [apply Qlt_bool_iff in E | apply Qlt_bool_false in E].

Ltac case_eq_q x y :=
  let E := fresh "Heq" in
  destruct (Qeq_bool x y) eqn:E;
  [apply Qeq_bool_iff in E | apply Qeq_bool_false in E].

Lemma Qmult_le_compat_left (x y z : Q) : 0 <= z -> x <= y -> z * x <= z * y.
Proof.
  intros Hz Hxy. rewrite !(Qmult_comm z). apply Qmult_le_compat_r; assumption.
Qed.

(** Split a conjunction into its conjuncts, and nothing else. *)
Ltac conjuncts := repeat match goal with |- _ /\ _ => split end.

(** ** The payoff loop *)

Lemma balance_after_shift (r emi p : Q) (k : nat) :
  balance_after r emi p (S k) = balance_after r emi (close_step r emi p) k.
Proof.
  unfold balance_after. apply Nat.iter_succ_r.
Qed.

(** While the payment exceeds the interest on the balance, a period lowers
    the balance and the payment still exceeds the interest on the new one. *)
Lemma close_step_decreases (r emi b : Q) :
  0 <= r -> b * r < emi ->
  close_step r emi b < b /\ close_step r emi b * r < emi.
Proof.
  intros Hr Hb. unfold close_step.
  assert (Hlt : b + b * r - emi < b) by lra.
  split; [exact Hlt|].
  apply Qle_lt_trans with (b * r); [|exact Hb].
  apply Qmult_le_compat_r; lra.
Qed.

Lemma balance_decreasing (r emi p : Q) :
  0 <= r -> p * r < emi ->
  forall k, balance_after r emi p (S k) < balance_after r emi p k
            /\ balance_after r emi p k * r < emi.
Proof.
  intros Hr Hp k. induction k as [|k [IHlt IHcov]].
  - split; [|exact Hp]. apply (close_step_decreases r emi p Hr Hp).
  - assert (Hcov : balance_after r emi p (S k) * r < emi).
    { apply (close_step_decreases r emi _ Hr IHcov). }
    split; [|exact Hcov].
    apply (close_step_decreases r emi _ Hr Hcov).
Qed.

(** What the loop returns, from any state it can be in: it runs [j] further
    periods, the balance is positive before each of them, and it leaves
    either on a balance that is not positive or on the cap. *)
Lemma close_loop_spec (r emi : Q) :
  forall (budget fuel : nat) (remaining : Q) (months : Z),
    (0 <= months <= 600)%Z ->
    budget = Z.to_nat (600 - months) ->
    (budget < fuel)%nat ->
    0 < remaining ->
    exists j : nat,
      close_loop fuel r emi remaining months = Some (months + Z.of_nat j)%Z
      /\ (months + Z.of_nat j <= 600)%Z
      /\ ((months < 600)%Z -> (1 <= j)%nat)
      /\ (forall i, (i < j)%nat -> 0 < balance_after r emi remaining i)
      /\ (balance_after r emi remaining j <= 0
          \/ (months + Z.of_nat j = 600)%Z).
Proof.
  induction budget as [|budget IH]; intros fuel remaining months Hm Hb Hf Hpos;
    (destruct fuel as [|fuel]; [lia|]); cbn [close_loop].
  - assert (months = 600%Z) by lia. subst months.
    apply Qlt_bool_iff in Hpos. rewrite Hpos. cbn [andb Z.ltb Z.compare Pos.compare Pos.compare_cont].
    exists 0%nat. conjuncts; try lia; reflexivity.
  - assert (Hlt : (months <? 600)%Z = true) by (apply Z.ltb_lt; lia).
    pose proof Hpos as Hpos'. apply Qlt_bool_iff in Hpos'.
    rewrite Hpos', Hlt. cbn [andb].
    case_le (close_step r emi remaining) 0.
    + exists 1%nat. conjuncts; try lia.
      * reflexivity.
      * intros i Hi. assert (i = 0%nat) by lia. subst i. exact Hpos.
      * left. exact Hle.
    + destruct (IH fuel (close_step r emi remaining) (months + 1)%Z)
        as (j & Hres & Hcap & _ & Hbefore & Hexit); try lia; try assumption.
      exists (S j). rewrite Hres.
      conjuncts; try lia.
      * f_equal. lia.
      * intros [|i] Hi; [exact Hpos|].
        rewrite balance_after_shift. apply Hbefore. lia.
      * rewrite balance_after_shift.
        destruct Hexit as [Hexit | Hexit]; [left; exact Hexit | right; lia].
Qed.


(** The branch of [calculateMonthsToClose] that runs the loop. *)
Lemma months_to_close_loop_branch (fuel : nat) (principal monthlyRate emi : Q) :
  0 < principal -> 0 < monthlyRate -> principal * monthlyRate < emi ->
  calculateMonthsToClose fuel principal monthlyRate emi
  = option_map Months (close_loop fuel monthlyRate emi principal 0).
Proof.
  intros Hp Hr He. unfold calculateMonthsToClose.
  assert (Hemi : 0 < emi).
  { apply Qlt_trans with (principal * monthlyRate); [|exact He].
    apply Qmult_lt_0_compat; assumption. }
  case_le emi 0; [lra|]. case_le principal 0; [lra|]. cbn [orb].
  case_eq_q monthlyRate 0; [lra|].
  case_le emi (principal * monthlyRate); [lra|]. reflexivity.
Qed.

(** C5.  With a positive monthly rate and a payment above the first month's
    interest, [calculateMonthsToClose] returns (given fuel for its at most
    601 loop tests) a month count [m] between 1 and 600; the balance is
    positive before each of the [m] periods and each period lowers it; and
    the loop stops either on a balance that has reached zero or, failing
    that, at the cap, [m = 600]. *)
Theorem months_to_close_terminates_within_cap
    (fuel : nat) (principal monthlyRate emi : Q) :
  0 < principal -> 0 < monthlyRate -> principal * monthlyRate < emi ->
  (600 < fuel)%nat ->
  exists m : nat,
    calculateMonthsToClose fuel principal monthlyRate emi
    = Some (Months (Z.of_nat m))
    /\ (1 <= m <= 600)%nat
    /\ (forall k, (k < m)%nat ->
          0 < balance_after monthlyRate emi principal k
          /\ balance_after monthlyRate emi principal (S k)
             < balance_after monthlyRate emi principal k)
    /\ (balance_after monthlyRate emi principal m <= 0 \/ m = 600%nat).
Proof.
  intros Hp Hr He Hfuel.
  rewrite months_to_close_loop_branch by assumption.
  destruct (close_loop_spec monthlyRate emi 600 fuel principal 0)
    as (m & Hres & Hcap & Hone & Hbefore & Hexit);
    try lia; try reflexivity; try assumption.
  exists m. rewrite Hres. cbn [option_map Z.add] in *.
  conjuncts; try lia.
  - reflexivity.
  - intros k Hk. split; [apply Hbefore; exact Hk|].
    apply balance_decreasing; [lra | exact He].
  - destruct Hexit as [Hexit | Hexit]; [left; exact Hexit | right; lia].
Qed.

Lemma months_to_close_terminates_within_cap_witness :
  exists m : nat,
    calculateMonthsToClose 601 1000 1 1001 = Some (Months (Z.of_nat m))
    /\ (1 <= m <= 600)%nat
    /\ (forall k, (k < m)%nat ->
          0 < balance_after 1 1001 1000 k
          /\ balance_after 1 1001 1000 (S k) < balance_after 1 1001 1000 k)
    /\ (balance_after 1 1001 1000 m <= 0 \/ m = 600%nat).
Proof.
  apply (months_to_close_terminates_within_cap 601 1000 1 1001);
    [reflexivity | reflexivity | reflexivity | lia].
Defined.

(** C4.  With principal, monthly rate and payment all positive,
    [calculateMonthsToClose] returns [Infinity] exactly when the payment is
    at most the first month's interest [principal * monthlyRate]; in every
    other case it returns a month count, a number between 1 and 600. *)
Theorem months_to_close_unbounded_iff
    (fuel : nat) (principal monthlyRate emi : Q) :
  0 < principal -> 0 < monthlyRate -> 0 < emi -> (600 < fuel)%nat ->
  (calculateMonthsToClose fuel principal monthlyRate emi = Some Infinity
   <-> emi <= principal * monthlyRate)
  /\ (~ emi <= principal * monthlyRate ->
      exists m : Z,
        calculateMonthsToClose fuel principal monthlyRate emi = Some (Months m)
        /\ (1 <= m <= 600)%Z).
Proof.
  intros Hp Hr He Hfuel.
  assert (Hfinite : principal * monthlyRate < emi ->
            exists m : Z,
              calculateMonthsToClose fuel principal monthlyRate emi
              = Some (Months m) /\ (1 <= m <= 600)%Z).
  { intros Hlt. rewrite months_to_close_loop_branch by assumption.
    destruct (close_loop_spec monthlyRate emi 600 fuel principal 0)
      as (m & Hres & Hcap & Hone & _);
      try lia; try reflexivity; try assumption.
    exists (0 + Z.of_nat m)%Z. rewrite Hres. split; [reflexivity | lia]. }
  split; [split|].
  - intros Hinf. destruct (Qlt_le_dec (principal * monthlyRate) emi) as [Hlt|Hle];
      [|exact Hle].
    destruct (Hfinite Hlt) as (m & Hm & _). congruence.
  - intros Hle. unfold calculateMonthsToClose.
    case_le emi 0; [lra|]. case_le principal 0; [lra|]. cbn [orb].
    case_eq_q monthlyRate 0; [lra|].
    apply Qle_bool_iff in Hle. rewrite Hle. reflexivity.
  - intros Hnle. apply Hfinite. apply Qnot_le_lt. exact Hnle.
Qed.

Lemma months_to_close_unbounded_iff_witness :
  (calculateMonthsToClose 601 1000 (1 # 100) 10 = Some Infinity
   <-> 10 <= 1000 * (1 # 100))
  /\ (~ 10 <= 1000 * (1 # 100) ->
      exists m : Z,
        calculateMonthsToClose 601 1000 (1 # 100) 10 = Some (Months m)
        /\ (1 <= m <= 600)%Z).
Proof.
  apply (months_to_close_unbounded_iff 601 1000 (1 # 100) 10);
    [reflexivity | reflexivity | reflexivity | lia].
Defined.

(** C10.  At a monthly rate of zero, with principal and payment positive,
    [calculateMonthsToClose] returns [ceil(principal / emi)] whatever the
    fuel, without consulting the 600-month cap; for a principal of 1000 paid
    off 1 a month the count is 1000. *)
Theorem months_to_close_zero_rate_uncapped :
  (forall (fuel : nat) (principal monthlyRate emi : Q),
      0 < principal -> 0 < emi -> monthlyRate == 0 ->
      calculateMonthsToClose fuel principal monthlyRate emi
      = Some (Months (Math_ceil (principal / emi))))
  /\ (exists (principal emi : Q) (m : Z),
        0 < principal /\ 0 < emi
        /\ calculateMonthsToClose 0 principal 0 emi = Some (Months m)
        /\ (600 < m)%Z).
Proof.
  split.
  - intros fuel principal monthlyRate emi Hp He Hr.
    unfold calculateMonthsToClose.
    case_le emi 0; [lra|]. case_le principal 0; [lra|]. cbn [orb].
    apply Qeq_bool_iff in Hr. rewrite Hr. reflexivity.
  - exists 1000, 1, 1000%Z.
    split; [reflexivity|]. split; [reflexivity|].
    split; [reflexivity | lia].
Qed.

Lemma months_to_close_zero_rate_uncapped_witness :
  calculateMonthsToClose 0 1000 0 1 = Some (Months (Math_ceil (1000 / 1))).
Proof.
  apply (proj1 months_to_close_zero_rate_uncapped 0%nat 1000 0 1);
    reflexivity.
Defined.

(** ** The amortization table *)

Lemma Math_max_0_nonneg (x : Q) : 0 <= Math_max 0 x.
Proof.
  unfold Math_max. case_le 0 x; lra.
Qed.

Lemma Math_max_0_le (x b : Q) : 0 <= b -> x <= b -> Math_max 0 x <= b.
Proof.
  intros Hb Hx. unfold Math_max. case_le 0 x; lra.
Qed.

(** The loop condition [month <= totalMonths] only looks at the integer part
    of [totalMonths]. *)
Lemma month_le_total (month : Z) (totalMonths : Q) :
  Qle_bool (inject_Z month) totalMonths = (month <=? Qfloor totalMonths)%Z.
Proof.
  case_le (inject_Z month) totalMonths; symmetry.
  - apply Z.leb_le. rewrite <- (Qfloor_Z month).
    apply Qfloor_resp_le. exact Hle.
  - apply Z.leb_gt. destruct (Z_lt_le_dec (Qfloor totalMonths) month) as [H|H];
      [exact H|].
    exfalso. apply (Qlt_not_le _ _ Hle).
    apply Qle_trans with (inject_Z (Qfloor totalMonths));
      [|apply Qfloor_le].
    rewrite <- Zle_Qle. exact H.
Qed.

(** The loop leaves through its condition, after one row for each month from
    [month] to the integer part of [totalMonths]. *)
Lemma report_loop_rows (emi monthlyRate totalMonths : Q) :
  forall (n fuel : nat) (month : Z) (st : ReportState),
    n = Z.to_nat (Qfloor totalMonths - month + 1) ->
    (n < fuel)%nat ->
    exists steps,
      report_loop fuel emi monthlyRate totalMonths month st = Some steps
      /\ length steps = n
      /\ map (fun s => row_month (fst s)) steps
         = map (fun i => (month + Z.of_nat i)%Z) (seq 0 n).
Proof.
  induction n as [|n IH]; intros fuel month st Hn Hfuel;
    (destruct fuel as [|fuel]; [lia|]); cbn [report_loop];
    rewrite month_le_total.
  - assert (Hgt : (month <=? Qfloor totalMonths)%Z = false)
      by (apply Z.leb_gt; lia).
    rewrite Hgt. exists []. auto.
  - assert (Hle : (month <=? Qfloor totalMonths)%Z = true)
      by (apply Z.leb_le; lia).
    rewrite Hle.
    destruct (report_month emi monthlyRate totalMonths month st)
      as [[row sample] st'] eqn:Hbody.
    destruct (IH fuel (month + 1)%Z st') as (rest & Hrest & Hlen & Hmonths);
      try lia.
    rewrite Hrest. exists ((row, sample) :: rest).
    split; [reflexivity|]. split; [cbn [length]; lia|].
    cbn [map seq fst]. f_equal.
    + unfold report_month in Hbody. injection Hbody as <- _ _.
      cbn [row_month]. lia.
    + rewrite Hmonths, <- seq_shift, map_map.
      apply map_ext. intros i. lia.
Qed.

(** With fuel for its [n + 1] tests the loop of a term of [n] whole months
    returns. *)
Lemma report_table_rows_exist
    (fuel : nat) (principal emi monthlyRate totalMonths : Q) (n : Z) :
  (0 < n)%Z -> totalMonths == inject_Z n -> (Z.to_nat n < fuel)%nat ->
  exists steps,
    report_loop fuel emi monthlyRate totalMonths 1
      (mkReportState principal 0 0) = Some steps.
Proof.
  intros Hn Htotal Hfuel.
  assert (Hfloor : Qfloor totalMonths = n).
  { rewrite Htotal. apply Qfloor_Z. }
  destruct (report_loop_rows emi monthlyRate totalMonths (Z.to_nat n) fuel 1
              (mkReportState principal 0 0))
    as (steps & Hsteps & _); [rewrite Hfloor; lia | exact Hfuel |].
  exists steps. exact Hsteps.
Qed.

(** The table of a term of [n] whole months. *)
Lemma report_table_rows
    (fuel : nat) (principal emi monthlyRate totalMonths : Q) (n : Z) :
  (0 < n)%Z -> totalMonths == inject_Z n -> (Z.to_nat n < fuel)%nat ->
  exists report,
    generateReportTable fuel principal emi monthlyRate totalMonths
    = Some report
    /\ length (report_rows report) = Z.to_nat n
    /\ map row_month (report_rows report)
       = map (fun i => (1 + Z.of_nat i)%Z) (seq 0 (Z.to_nat n)).
Proof.
  intros Hn Htotal Hfuel. unfold generateReportTable.
  assert (Hfloor : Qfloor totalMonths = n).
  { rewrite Htotal. apply Qfloor_Z. }
  destruct (report_loop_rows emi monthlyRate totalMonths (Z.to_nat n) fuel 1
              (mkReportState principal 0 0))
    as (steps & Hsteps & Hlen & Hmonths); [rewrite Hfloor; lia | exact Hfuel |].
  rewrite Hsteps. eexists. split; [reflexivity|].
  cbn [report_rows]. rewrite length_map, map_map. auto.
Qed.

(** C2.  For a term of [n > 0] whole months, [generateReportTable] returns
    (given fuel for its [n + 1] loop tests) a table of exactly [n] rows, one
    for each month 1, ..., n, whatever the principal, payment and rate: the
    loop has no early exit, so the table is never shorter than the term. *)
Theorem report_table_has_term_rows
    (fuel : nat) (principal emi monthlyRate totalMonths : Q) (n : Z) :
  (0 < n)%Z -> totalMonths == inject_Z n -> (Z.to_nat n < fuel)%nat ->
  exists report,
    generateReportTable fuel principal emi monthlyRate totalMonths
    = Some report
    /\ length (report_rows report) = Z.to_nat n
    /\ map row_month (report_rows report)
       = map (fun i => (1 + Z.of_nat i)%Z) (seq 0 (Z.to_nat n)).
Proof.
  apply report_table_rows.
Qed.

Lemma report_table_has_term_rows_witness :
  exists report,
    generateReportTable 4 1000 400 (1 # 10) 3 = Some report
    /\ length (report_rows report) = Z.to_nat 3
    /\ map row_month (report_rows report)
       = map (fun i => (1 + Z.of_nat i)%Z) (seq 0 (Z.to_nat 3)).
Proof.
  apply (report_table_has_term_rows 4 1000 400 (1 # 10) 3 3%Z);
    [lia | reflexivity | cbn; lia].
Defined.

(** What one month does to the balance when the payment covers the interest
    on it. *)
Lemma report_month_balance (emi monthlyRate totalMonths : Q) (month : Z)
    (st st' : ReportState) (row : AmortizationRow) (sample : option ChartPoint) :
  0 <= monthlyRate ->
  0 <= remainingPrincipal st ->
  remainingPrincipal st * monthlyRate <= emi ->
  report_month emi monthlyRate totalMonths month st = (row, sample, st') ->
  remainingPrincipal st' = row_remainingPrincipal row
  /\ 0 <= row_remainingPrincipal row
  /\ row_remainingPrincipal row <= remainingPrincipal st
  /\ remainingPrincipal st' * monthlyRate <= emi.
Proof.
  intros Hr Hb Hcov Hbody. unfold report_month in Hbody.
  injection Hbody as <- _ <-. cbn [row_remainingPrincipal remainingPrincipal].
  set (payment := if Qeq_bool (inject_Z month) totalMonths
                  then remainingPrincipal st
                  else emi - remainingPrincipal st * monthlyRate).
  assert (Hpay : 0 <= payment).
  { unfold payment. destruct (Qeq_bool (inject_Z month) totalMonths); lra. }
  assert (Hle : Math_max 0 (remainingPrincipal st - payment)
                <= remainingPrincipal st).
  { apply Math_max_0_le; lra. }
  conjuncts; [reflexivity | apply Math_max_0_nonneg | exact Hle |].
  apply Qle_trans with (remainingPrincipal st * monthlyRate); [|exact Hcov].
  apply Qmult_le_compat_r; assumption.
Qed.

(** The row of the month that is [=== totalMonths] closes the balance. *)
Lemma report_month_final (emi monthlyRate totalMonths : Q) (month : Z)
    (st st' : ReportState) (row : AmortizationRow) (sample : option ChartPoint) :
  inject_Z month == totalMonths ->
  report_month emi monthlyRate totalMonths month st = (row, sample, st') ->
  row_remainingPrincipal row == 0.
Proof.
  intros Hlast Hbody. unfold report_month in Hbody.
  injection Hbody as <- _ _. cbn [row_remainingPrincipal].
  apply Qeq_bool_iff in Hlast. rewrite Hlast.
  unfold Math_max.
  case_le 0 (remainingPrincipal st - remainingPrincipal st); lra.
Qed.

Lemma report_loop_non_increasing (emi monthlyRate totalMonths : Q) :
  0 <= monthlyRate ->
  forall (fuel : nat) (month : Z) (st : ReportState) steps,
    0 <= remainingPrincipal st ->
    remainingPrincipal st * monthlyRate <= emi ->
    report_loop fuel emi monthlyRate totalMonths month st = Some steps ->
    balance_non_increasing (map fst steps)
    /\ forall row, In row (map fst steps) ->
         row_remainingPrincipal row <= remainingPrincipal st.
Proof.
  intros Hr. unfold balance_non_increasing.
  induction fuel as [|fuel IH]; intros month st steps Hb Hcov Hloop;
    cbn [report_loop] in Hloop; [discriminate|].
  destruct (Qle_bool (inject_Z month) totalMonths).
  2:{ injection Hloop as <-. split; [constructor | intros row []]. }
  destruct (report_month emi monthlyRate totalMonths month st)
    as [[row sample] st'] eqn:Hbody.
  destruct (report_loop fuel emi monthlyRate totalMonths (month + 1) st')
    as [rest|] eqn:Hrest; [|discriminate].
  injection Hloop as <-.
  destruct (report_month_balance _ _ _ _ _ _ _ _ Hr Hb Hcov Hbody)
    as (Hst' & Hnonneg & Hle & Hcov').
  destruct (IH _ _ _ (eq_ind_r (fun b => 0 <= b) Hnonneg Hst') Hcov' Hrest)
    as (Hsorted & Hbound).
  cbn [map fst]. split.
  - constructor; [exact Hsorted|].
    destruct (map fst rest) as [|next rows] eqn:Hrows; constructor.
    rewrite <- Hst'. apply Hbound. left. reflexivity.
  - intros row' [<- | Hin]; [exact Hle|].
    apply Qle_trans with (remainingPrincipal st'); [apply Hbound; exact Hin|].
    rewrite Hst'. exact Hle.
Qed.

Lemma report_loop_final_zero (emi monthlyRate totalMonths : Q) (n : Z) :
  totalMonths == inject_Z n ->
  forall (fuel : nat) (month : Z) (st : ReportState) steps,
    (month <= n)%Z ->
    report_loop fuel emi monthlyRate totalMonths month st = Some steps ->
    exists front final,
      map fst steps = front ++ [final]
      /\ row_remainingPrincipal final == 0.
Proof.
  intros Htotal.
  induction fuel as [|fuel IH]; intros month st steps Hmonth Hloop;
    cbn [report_loop] in Hloop; [discriminate|].
  rewrite month_le_total, Htotal, Qfloor_Z in Hloop.
  assert (Hle : (month <=? n)%Z = true) by (apply Z.leb_le; exact Hmonth).
  rewrite Hle in Hloop.
  destruct (report_month emi monthlyRate totalMonths month st)
    as [[row sample] st'] eqn:Hbody.
  destruct (report_loop fuel emi monthlyRate totalMonths (month + 1) st')
    as [rest|] eqn:Hrest; [|discriminate].
  injection Hloop as <-. cbn [map fst].
  destruct (Z.eq_dec month n) as [Heq | Hne].
  - assert (rest = []) as ->.
    { destruct fuel as [|fuel']; cbn [report_loop] in Hrest; [discriminate|].
      rewrite month_le_total, Htotal, Qfloor_Z in Hrest.
      assert (Hgt : (month + 1 <=? n)%Z = false) by (apply Z.leb_gt; lia).
      rewrite Hgt in Hrest. congruence. }
    exists [], row. split; [reflexivity|].
    apply (report_month_final _ _ _ _ _ _ _ _ (Qeq_trans _ _ _
             (eq_ind_r (fun m => inject_Z m == inject_Z n) (Qeq_refl _) Heq)
             (Qeq_sym _ _ Htotal)) Hbody).
  - destruct (IH (month + 1)%Z st' rest) as (front & final & Hrows & Hzero);
      [lia | exact Hrest |].
    exists (row :: front), final. rewrite Hrows. split; [reflexivity | exact Hzero].
Qed.

(** The balance column when the payment covers the first month's
    interest. *)
Lemma report_table_balance
    (fuel : nat) (principal emi monthlyRate totalMonths : Q) (n : Z) :
  0 < principal -> 0 <= monthlyRate -> principal * monthlyRate <= emi ->
  (0 < n)%Z -> totalMonths == inject_Z n -> (Z.to_nat n < fuel)%nat ->
  exists report,
    generateReportTable fuel principal emi monthlyRate totalMonths
    = Some report
    /\ balance_non_increasing (report_rows report)
    /\ (forall row, In row (report_rows report) ->
          row_remainingPrincipal row <= principal)
    /\ exists front final,
         report_rows report = front ++ [final]
         /\ row_remainingPrincipal final == 0.
Proof.
  intros Hp Hr Hcov Hn Htotal Hfuel.
  destruct (report_table_rows_exist fuel principal emi monthlyRate totalMonths n)
    as (steps & Hsteps); try assumption.
  unfold generateReportTable. rewrite Hsteps. eexists. split; [reflexivity|].
  cbn [report_rows].
  destruct (report_loop_non_increasing emi monthlyRate totalMonths Hr
              fuel 1 (mkReportState principal 0 0) steps)
    as (Hsorted & Hbound); cbn [remainingPrincipal]; try lra; try assumption.
  conjuncts; [exact Hsorted | exact Hbound |].
  apply (report_loop_final_zero emi monthlyRate totalMonths n Htotal
           fuel 1 (mkReportState principal 0 0) steps); [lia | exact Hsteps].
Qed.

(** C1, as the code has it.  For a principal [> 0], a monthly rate [>= 0],
    a payment that covers the first month's interest
    ([principal * monthlyRate <= emi]) and a term of [n > 0] whole months,
    the table [generateReportTable] returns has a [remainingPrincipal]
    column that never grows from a row to the next, starts no higher than
    the principal, and ends on a last row whose balance is zero. *)
Theorem report_table_balance_non_increasing
    (fuel : nat) (principal emi monthlyRate totalMonths : Q) (n : Z) :
  0 < principal -> 0 <= monthlyRate -> principal * monthlyRate <= emi ->
  (0 < n)%Z -> totalMonths == inject_Z n -> (Z.to_nat n < fuel)%nat ->
  exists report,
    generateReportTable fuel principal emi monthlyRate totalMonths
    = Some report
    /\ balance_non_increasing (report_rows report)
    /\ (forall row, In row (report_rows report) ->
          row_remainingPrincipal row <= principal)
    /\ exists front final,
         report_rows report = front ++ [final]
         /\ row_remainingPrincipal final == 0.
Proof.
  apply report_table_balance.
Qed.

Lemma report_table_balance_non_increasing_witness :
  exists report,
    generateReportTable 4 1000 400 (1 # 10) 3 = Some report
    /\ balance_non_increasing (report_rows report)
    /\ (forall row, In row (report_rows report) ->
          row_remainingPrincipal row <= 1000)
    /\ exists front final,
         report_rows report = front ++ [final]
         /\ row_remainingPrincipal final == 0.
Proof.
  apply (report_table_balance_non_increasing 4 1000 400 (1 # 10) 3 3%Z);
    [reflexivity | discriminate | discriminate | lia | reflexivity | cbn; lia].
Defined.

(** C1 as stated fails: nothing in [generateReportTable] relates the payment
    to the interest.  With principal 8, rate 1/2 a month, payment 1 and a
    term of 3 months the balances of the three rows are 11, 31/2 and 0: the
    balance grows from the first row to the second. *)
Lemma report_table_balance_can_grow :
  exists report,
    generateReportTable 4 8 1 (1 # 2) 3 = Some report
    /\ map (fun row => Qred (row_remainingPrincipal row)) (report_rows report)
       = [11; 31 # 2; 0]
    /\ ~ balance_non_increasing (report_rows report).
Proof.
  eexists. split; [vm_compute; reflexivity|]. split; [vm_compute; reflexivity|].
  unfold balance_non_increasing. cbn [report_rows].
  intros Hsorted. inversion Hsorted as [|row rows _ Hhd]; subst.
  inversion Hhd as [|next rest Hle]; subst.
  vm_compute in Hle. apply Hle. reflexivity.
Qed.

(** ** Rounding *)

Lemma Math_round_whole (x : Q) (k : Z) : x == inject_Z k -> Math_round x = k.
Proof.
  intros Hx. unfold Math_round. rewrite Hx.
  pose proof (Qfloor_le (inject_Z k + (1 # 2))) as Hlo.
  pose proof (Qlt_floor (inject_Z k + (1 # 2))) as Hhi.
  set (f := Qfloor (inject_Z k + (1 # 2))) in *.
  assert (Hup : inject_Z f < inject_Z (k + 1)).
  { rewrite inject_Z_plus. change (inject_Z 1) with 1. lra. }
  assert (Hdown : inject_Z k < inject_Z (f + 1)) by lra.
  rewrite <- Zlt_Qlt in Hup, Hdown. lia.
Qed.

(** ** Sorting the candidate durations *)

Lemma insert_asc_perm (x : Q) (l : list Q) :
  Permutation (insert_asc x l) (x :: l).
Proof.
  induction l as [|y l IH]; cbn [insert_asc]; [reflexivity|].
  destruct (Qle_bool x y); [reflexivity|].
  rewrite IH. apply perm_swap.
Qed.

Lemma sort_asc_perm (l : list Q) : Permutation (sort_asc l) l.
Proof.
  induction l as [|x l IH]; cbn [sort_asc fold_right]; [reflexivity|].
  rewrite insert_asc_perm. apply perm_skip. exact IH.
Qed.

Lemma insert_asc_sorted (x : Q) (l : list Q) :
  StronglySorted Qle l -> StronglySorted Qle (insert_asc x l).
Proof.
  induction l as [|y l IH]; cbn [insert_asc]; intros Hsorted.
  - constructor; constructor.
  - apply StronglySorted_inv in Hsorted. destruct Hsorted as [Hl Hy].
    case_le x y.
    + constructor; [constructor; assumption|].
      constructor; [exact Hle|].
      eapply Forall_impl; [|exact Hy].
      intros z Hz. apply Qle_trans with y; assumption.
    + constructor; [apply IH; exact Hl|].
      apply (Permutation_Forall (Permutation_sym (insert_asc_perm x l))).
      constructor; [apply Qlt_le_weak; exact Hle | exact Hy].
Qed.

Lemma sort_asc_sorted (l : list Q) : StronglySorted Qle (sort_asc l).
Proof.
  induction l as [|x l IH]; cbn [sort_asc fold_right]; [constructor|].
  apply insert_asc_sorted. exact IH.
Qed.

Lemma filter_sorted (f : Q -> bool) (l : list Q) :
  StronglySorted Qle l -> StronglySorted Qle (filter f l).
Proof.
  induction l as [|x l IH]; cbn [filter]; intros Hsorted; [constructor|].
  apply StronglySorted_inv in Hsorted. destruct Hsorted as [Hl Hx].
  destruct (f x); [|apply IH; exact Hl].
  constructor; [apply IH; exact Hl|].
  apply Forall_forall. intros y Hy. apply filter_In in Hy.
  rewrite Forall_forall in Hx. apply Hx. apply Hy.
Qed.

(** The selected duration, or a candidate equal to it, is in the list. *)
Lemma candidate_durations_selected (totalYears : Q) :
  exists d, In d (candidate_durations totalYears) /\ d == totalYears.
Proof.
  unfold candidate_durations.
  destruct (includes [5; 10; 15; 20; 25] totalYears) eqn:Hinc.
  - unfold includes in Hinc. apply existsb_exists in Hinc.
    destruct Hinc as (d & Hin & Heq). apply Qeq_bool_iff in Heq.
    exists d. split; [|symmetry; exact Heq].
    apply (Permutation_in _ (Permutation_sym (sort_asc_perm _))). exact Hin.
  - exists totalYears. split; [|reflexivity].
    apply (Permutation_in _ (Permutation_sym (sort_asc_perm _))).
    apply in_or_app. right. left. reflexivity.
Qed.

(** ** Compound growth *)

Lemma Qpower_nat_succ (a : Q) (k : nat) :
  0 < a -> a ^ Z.of_nat (S k) == a * a ^ Z.of_nat k.
Proof.
  intros Ha. rewrite Nat2Z.inj_succ, <- Z.add_1_r.
  rewrite Qpower_plus by lra. rewrite Qpower_1_r. ring.
Qed.

Lemma inject_nat_succ (k : nat) :
  inject_Z (Z.of_nat (S k)) == inject_Z (Z.of_nat k) + 1.
Proof.
  rewrite Nat2Z.inj_succ, <- Z.add_1_r, inject_Z_plus. reflexivity.
Qed.

Lemma inject_nat_nonneg (k : nat) : 0 <= inject_Z (Z.of_nat k).
Proof.
  change 0 with (inject_Z 0). rewrite <- Zle_Qle. lia.
Qed.

(** Bernoulli: [1 + k r <= (1 + r)^k]. *)
Lemma growth_bernoulli (r : Q) (k : nat) :
  0 <= r -> 1 + inject_Z (Z.of_nat k) * r <= (1 + r) ^ Z.of_nat k.
Proof.
  intros Hr. induction k as [|k IH].
  - change (1 + 0 * r <= 1). lra.
  - rewrite Qpower_nat_succ by lra. rewrite inject_nat_succ.
    pose proof (inject_nat_nonneg k) as Hk.
    set (x := (1 + r) ^ Z.of_nat k) in *.
    set (c := inject_Z (Z.of_nat k)) in *.
    assert (0 <= c * r * r).
    { apply Qmult_le_0_compat; [apply Qmult_le_0_compat|]; assumption. }
    assert ((1 + r) * (1 + c * r) <= (1 + r) * x).
    { apply Qmult_le_compat_left; [lra | exact IH]. }
    lra.
Qed.

(** Strictly so from the second period on, at a positive rate. *)
Lemma growth_bernoulli_strict (r : Q) (k : nat) :
  0 < r -> (1 <= k)%nat ->
  1 + inject_Z (Z.of_nat (S k)) * r < (1 + r) ^ Z.of_nat (S k).
Proof.
  intros Hr Hk. rewrite Qpower_nat_succ by lra. rewrite inject_nat_succ.
  pose proof (growth_bernoulli r k (Qlt_le_weak _ _ Hr)) as Hb.
  assert (Hc : 1 <= inject_Z (Z.of_nat k)).
  { change 1 with (inject_Z 1). rewrite <- Zle_Qle. lia. }
  set (x := (1 + r) ^ Z.of_nat k) in *.
  set (c := inject_Z (Z.of_nat k)) in *.
  assert (0 < r * r) by (apply Qmult_lt_0_compat; assumption).
  assert (r * r <= c * (r * r)).
  { rewrite <- (Qmult_1_l (r * r)) at 1.
    apply Qmult_le_compat_r; [exact Hc | lra]. }
  assert ((1 + r) * (1 + c * r) <= (1 + r) * x).
  { apply Qmult_le_compat_left; [lra | exact Hb]. }
  lra.
Qed.

Lemma growth_gt_1 (r : Q) (k : nat) :
  0 < r -> (1 <= k)%nat -> 1 < (1 + r) ^ Z.of_nat k.
Proof.
  intros Hr Hk.
  apply Qlt_le_trans with (1 + inject_Z (Z.of_nat k) * r);
    [|apply growth_bernoulli; lra].
  assert (Hc : 1 <= inject_Z (Z.of_nat k)).
  { change 1 with (inject_Z 1). rewrite <- Zle_Qle. lia. }
  assert (r <= inject_Z (Z.of_nat k) * r).
  { rewrite <- (Qmult_1_l r) at 1. apply Qmult_le_compat_r; lra. }
  lra.
Qed.

Lemma growth_pos (r : Q) (k : nat) : 0 <= r -> 0 < (1 + r) ^ Z.of_nat k.
Proof.
  intros Hr. apply Qpower_0_lt. lra.
Qed.

Lemma growth_step_increasing (r : Q) (k : nat) :
  0 < r -> (1 + r) ^ Z.of_nat k < (1 + r) ^ Z.of_nat (S k).
Proof.
  intros Hr. rewrite Qpower_nat_succ by lra.
  pose proof (growth_pos r k (Qlt_le_weak _ _ Hr)) as Hx.
  set (x := (1 + r) ^ Z.of_nat k) in *.
  assert (0 < r * x) by (apply Qmult_lt_0_compat; assumption).
  lra.
Qed.

Lemma growth_increasing (r : Q) (j k : nat) :
  0 < r -> (j < k)%nat -> (1 + r) ^ Z.of_nat j < (1 + r) ^ Z.of_nat k.
Proof.
  intros Hr Hjk. induction Hjk as [|k Hjk IH].
  - apply growth_step_increasing. exact Hr.
  - apply Qlt_trans with ((1 + r) ^ Z.of_nat k); [exact IH|].
    apply growth_step_increasing. exact Hr.
Qed.

(** ** The annuity factor *)

(** [x / (x - 1)] falls as [x] grows above 1. *)
Lemma annuity_factor_decreasing (x1 x2 : Q) :
  1 < x1 -> x1 < x2 -> x2 / (x2 - 1) < x1 / (x1 - 1).
Proof.
  intros H1 H12. apply Qlt_shift_div_r; [lra|].
  assert (E : x1 / (x1 - 1) * (x2 - 1) == (x1 * (x2 - 1)) / (x1 - 1))
    by (field; lra).
  rewrite E. apply Qlt_shift_div_l; lra.
Qed.

(** [k (1+r)^k / ((1+r)^k - 1)], the number of payments times the annuity
    factor, grows with [k]. *)
Lemma interest_factor_step (r : Q) (k : nat) :
  0 < r -> (1 <= k)%nat ->
  inject_Z (Z.of_nat k) * (1 + r) ^ Z.of_nat k / ((1 + r) ^ Z.of_nat k - 1)
  < inject_Z (Z.of_nat (S k)) * (1 + r) ^ Z.of_nat (S k)
    / ((1 + r) ^ Z.of_nat (S k) - 1).
Proof.
  intros Hr Hk.
  pose proof (growth_bernoulli_strict r k Hr Hk) as Hb.
  pose proof (growth_gt_1 r (S k) Hr ltac:(lia)) as Hx'.
  pose proof (growth_gt_1 r k Hr Hk) as Hx.
  rewrite Qpower_nat_succ in * by lra. rewrite inject_nat_succ in *.
  set (x := (1 + r) ^ Z.of_nat k) in *.
  set (c := inject_Z (Z.of_nat k)) in *.
  apply Qlt_shift_div_r; [lra|].
  assert (E : (c + 1) * ((1 + r) * x) / ((1 + r) * x - 1) * (x - 1)
              == ((c + 1) * ((1 + r) * x) * (x - 1)) / ((1 + r) * x - 1))
    by (field; lra).
  rewrite E. apply Qlt_shift_div_l; [lra|].
  assert (0 < x * ((1 + r) * x - (1 + (c + 1) * r)))
    by (apply Qmult_lt_0_compat; lra).
  lra.
Qed.

Lemma interest_factor_increasing (r : Q) (j k : nat) :
  0 < r -> (1 <= j)%nat -> (j < k)%nat ->
  inject_Z (Z.of_nat j) * (1 + r) ^ Z.of_nat j / ((1 + r) ^ Z.of_nat j - 1)
  < inject_Z (Z.of_nat k) * (1 + r) ^ Z.of_nat k / ((1 + r) ^ Z.of_nat k - 1).
Proof.
  intros Hr Hj Hjk. induction Hjk as [|k Hjk IH].
  - apply interest_factor_step; assumption.
  - eapply Qlt_trans; [exact IH|].
    apply interest_factor_step; [exact Hr | lia].
Qed.

(** ** The balance under the annuity payment *)




(** ** The monthly rate *)

Lemma monthlyRate_of_1200 (annualRate : Q) :
  monthlyRate_of annualRate == annualRate / 1200.
Proof.
  unfold monthlyRate_of. field.
Qed.

Lemma monthlyRate_of_nonneg (annualRate : Q) :
  0 <= annualRate -> 0 <= monthlyRate_of annualRate.
Proof.
  intros H. rewrite monthlyRate_of_1200. apply Qle_shift_div_l; lra.
Qed.

Lemma monthlyRate_of_pos (annualRate : Q) :
  0 < annualRate -> 0 < monthlyRate_of annualRate.
Proof.
  intros H. rewrite monthlyRate_of_1200. apply Qlt_shift_div_l; lra.
Qed.

Lemma monthlyRate_of_zero (annualRate : Q) :
  annualRate == 0 -> monthlyRate_of annualRate == 0.
Proof.
  intros H. rewrite monthlyRate_of_1200, H. reflexivity.
Qed.

(** [pow_int] is exponentiation at whole exponents. *)
Lemma pow_int_whole (b e : Q) (n : Z) :
  0 < b -> (0 <= n)%Z -> e == inject_Z n -> pow_int b e == b ^ n.
Proof.
  intros _ _ He. unfold pow_int. rewrite He, Qfloor_Z. reflexivity.
Qed.

Section FormEntryPoints.

(** The comparison holds for every [Math.pow]: it compares the interest
    figures it computed, whatever they are. *)
Variable Math_pow : Q -> Q -> Q.

(** ** Duration comparison *)

Lemma compare_duration_rows (principal interest totalYears : Q)
    (st : CompareState) (duration : Q) :
  map dur_duration
    (cmp_rows (compare_duration Math_pow principal interest totalYears
                 st duration))
  = map dur_duration (cmp_rows st)
    ++ filter (fun d => Qle_bool d totalYears) [duration]
  /\ (Forall (row_computed Math_pow principal interest) (cmp_rows st) ->
      Forall (row_computed Math_pow principal interest)
        (cmp_rows (compare_duration Math_pow principal interest totalYears
                     st duration))).
Proof.
  unfold compare_duration. cbn [filter].
  destruct (Qle_bool duration totalYears); cbn [cmp_rows].
  - split; [rewrite map_app; reflexivity|].
    intros Hrows. apply Forall_app. split; [exact Hrows|].
    constructor; [|constructor]. split; reflexivity.
  - split; [rewrite app_nil_r; reflexivity | auto].
Qed.

(** The callback keeps [bestOption] on the first minimum of the rows. *)
Lemma compare_duration_invariant (principal interest totalYears : Q)
    (st : CompareState) (duration : Q) :
  comparison_invariant st ->
  comparison_invariant
    (compare_duration Math_pow principal interest totalYears st duration).
Proof.
  intros Hinv. unfold compare_duration.
  destruct (Qle_bool duration totalYears); [|exact Hinv].
  set (emi := calculateEMI Math_pow principal interest duration).
  set (int := calculateTotalInterest principal emi duration).
  destruct Hinv as [(Hrows & Hbest & Hmin)
                   | (best & (before & after & Hrows & Hbefore & Hafter)
                      & Hbest & Hmin)];
    rewrite Hmin, Hrows.
  - right.
    exists (mkDurationRow duration emi int (principal + int)
              (Qeq_bool duration totalYears) true).
    split; [|split; reflexivity].
    exists [], []. cbn [app]. split; [reflexivity|]. split; constructor.
  - case_lt int (dur_interest best); right.
    + exists (mkDurationRow duration emi int (principal + int)
                (Qeq_bool duration totalYears) true).
      split; [|split; reflexivity].
      exists (before ++ best :: after), []. cbn [dur_interest].
      split; [reflexivity|]. split; [|constructor].
      apply Forall_app. split.
      * eapply Forall_impl; [|exact Hbefore]. cbn beta. intros row Hrow. lra.
      * constructor; [exact Hlt|].
        eapply Forall_impl; [|exact Hafter]. cbn beta. intros row Hrow. lra.
    + exists best. cbn [cmp_rows cmp_bestOption cmp_minInterest].
      split; [|split; [exact Hbest | reflexivity]].
      exists before, (after ++ [mkDurationRow duration emi int
                                  (principal + int)
                                  (Qeq_bool duration totalYears) false]).
      split; [rewrite <- app_assoc; reflexivity|].
      split; [exact Hbefore|].
      apply Forall_app. split; [exact Hafter|].
      constructor; [exact Hlt | constructor].
Qed.

Lemma compare_durations_fold (principal interest totalYears : Q)
    (durations : list Q) :
  forall st,
    let final :=
      fold_left (compare_duration Math_pow principal interest totalYears)
        durations st in
    map dur_duration (cmp_rows final)
    = map dur_duration (cmp_rows st)
      ++ filter (fun d => Qle_bool d totalYears) durations
    /\ (Forall (row_computed Math_pow principal interest) (cmp_rows st) ->
        Forall (row_computed Math_pow principal interest) (cmp_rows final))
    /\ (comparison_invariant st -> comparison_invariant final).
Proof.
  induction durations as [|d durations IH]; intros st; cbn [fold_left filter].
  - rewrite app_nil_r. auto.
  - destruct (IH (compare_duration Math_pow principal interest totalYears
                    st d)) as (Hrows & Hcomputed & Hinv).
    destruct (compare_duration_rows principal interest totalYears st d)
      as (Hrows1 & Hcomputed1).
    cbn zeta in *. split; [|split].
    + rewrite Hrows, Hrows1, <- app_assoc. f_equal.
      cbn [filter]. destruct (Qle_bool d totalYears); reflexivity.
    + auto.
    + intros H. apply Hinv. apply compare_duration_invariant. exact H.
Qed.

(** C7.  On valid input [calculateTab1] builds its table from exactly the
    candidates (5, 10, 15, 20, 25 years and the selected duration) that are
    at most the selected duration, in ascending order; each row carries the
    EMI of its duration and the interest [emi * duration * 12 - principal];
    and [bestOption] is the first row of the table with the least interest:
    every earlier (shorter) row has strictly more interest, every later row
    at least as much, so a tie goes to the shorter duration. *)
Theorem compare_durations_selects_first_minimum
    (principal interest : Q) (years1 months1 : option Q) (res : Tab1Result) :
  calculateTab1 Math_pow (Some principal) (Some interest) years1 months1
  = Some res ->
  let totalYears := or_zero years1 + or_zero months1 / 12 in
  map dur_duration (t1_table res)
  = filter (fun d => Qle_bool d totalYears) (candidate_durations totalYears)
  /\ StronglySorted Qle (map dur_duration (t1_table res))
  /\ (forall d, In d (map dur_duration (t1_table res)) <->
        In d (if includes [5; 10; 15; 20; 25] totalYears
              then [5; 10; 15; 20; 25]
              else [5; 10; 15; 20; 25] ++ [totalYears])
        /\ d <= totalYears)
  /\ Forall (row_computed Math_pow principal interest) (t1_table res)
  /\ exists best,
       t1_bestOption res = Some (as_best best)
       /\ first_minimum (t1_table res) best.
Proof.
  cbn zeta. unfold calculateTab1.
  destruct (Qle_bool principal 0 || Qlt_bool interest 0); [discriminate|].
  set (totalYears := or_zero years1 + or_zero months1 / 12).
  destruct (Qle_bool totalYears 0); [discriminate|].
  intros Hres. injection Hres as <-. cbn [t1_table t1_bestOption].
  destruct (compare_durations_fold principal interest totalYears
              (candidate_durations totalYears) (mkCompareState [] None None))
    as (Hrows & Hcomputed & Hinv).
  cbn zeta in *. cbn [cmp_rows map app] in Hrows.
  set (final := fold_left
                  (compare_duration Math_pow principal interest totalYears)
                  (candidate_durations totalYears)
                  (mkCompareState [] None None)) in *.
  assert (Hmem : forall d, In d (map dur_duration (cmp_rows final)) <->
            In d (if includes [5; 10; 15; 20; 25] totalYears
                  then [5; 10; 15; 20; 25]
                  else [5; 10; 15; 20; 25] ++ [totalYears])
            /\ d <= totalYears).
  { intros d. rewrite Hrows, filter_In, Qle_bool_iff.
    unfold candidate_durations. split; intros [Hin Hle]; (split; [|exact Hle]).
    - apply (Permutation_in _ (sort_asc_perm _)). exact Hin.
    - apply (Permutation_in _ (Permutation_sym (sort_asc_perm _))). exact Hin. }
  conjuncts.
  - exact Hrows.
  - rewrite Hrows. apply filter_sorted, sort_asc_sorted.
  - exact Hmem.
  - apply Hcomputed. constructor.
  - destruct Hinv as [(Hempty & _) | (best & Hfirst & Hbest & _)];
      [left; cbn; auto | |].
    + exfalso. destruct (candidate_durations_selected totalYears)
        as (d & Hin & Heq).
      assert (Hd : In d (map dur_duration (cmp_rows final))).
      { rewrite Hrows, filter_In, Qle_bool_iff. split; [exact Hin | lra]. }
      rewrite Hempty in Hd. exact Hd.
    + exists best. split; assumption.
Qed.

(** ** The round trip and the cap *)


End FormEntryPoints.

Section WholeExponents.

(** The statements below hold for any [Math.pow] that is exponentiation at
    whole, non-negative exponents of a positive base. *)
Variable Math_pow : Q -> Q -> Q.
Hypothesis Math_pow_whole :
  forall (b e : Q) (n : Z),
    0 < b -> (0 <= n)%Z -> e == inject_Z n -> Math_pow b e == b ^ n.

(** ** SIP projection *)

(** The SIP formula in exact arithmetic, with a [Math.pow] that is exact at
    whole exponents: for a monthly contribution [> 0], a whole number
    [n > 0] of months and an annual rate [>= 0], its value is at least the
    total contributed, [monthlyAmount * months], and exceeds it when the
    rate is positive. *)
Lemma sip_formula_covers_contributions
    (monthlyAmount annualRate months : Q) (n : Z) :
  0 < monthlyAmount -> 0 <= annualRate -> (0 < n)%Z ->
  months == inject_Z n ->
  monthlyAmount * months
  <= calculateSIPReturns Math_pow monthlyAmount annualRate months
  /\ (0 < annualRate ->
      monthlyAmount * months
      < calculateSIPReturns Math_pow monthlyAmount annualRate months).
Proof.
  intros Hamount Hrate Hn Hmonths. unfold calculateSIPReturns.
  pose proof (monthlyRate_of_nonneg annualRate Hrate) as Hr.
  case_eq_q (monthlyRate_of annualRate) 0.
  - split; [lra|]. intros Hpos.
    pose proof (monthlyRate_of_pos annualRate Hpos). lra.
  - set (r := monthlyRate_of annualRate) in *.
    assert (Hrpos : 0 < r) by lra.
    rewrite (Math_pow_whole (1 + r) months n) by (lra || lia || assumption).
    rewrite Hmonths.
    pose proof (growth_bernoulli r (Z.to_nat n) Hr) as Hb.
    rewrite Z2Nat.id in Hb by lia.
    set (x := (1 + r) ^ n) in *. set (c := inject_Z n) in *.
    assert (Hc : 0 < c).
    { unfold c. change 0 with (inject_Z 0). rewrite <- Zlt_Qlt. exact Hn. }
    assert (Hquot : c <= (x - 1) / r).
    { apply Qle_shift_div_l; lra. }
    assert (Hlt : c < (x - 1) / r * (1 + r)).
    { assert (0 < (x - 1) / r * r).
      { apply Qmult_lt_0_compat; lra. }
      lra. }
    assert (monthlyAmount * c < monthlyAmount * ((x - 1) / r * (1 + r))).
    { apply Qmult_lt_l; assumption. }
    split; [lra | intros _; assumption].
Qed.

(** ** EMI solver *)

(** On valid input at a positive rate and a whole number [n] of months the
    solver returns the annuity payment [P r (1+r)^n / ((1+r)^n - 1)]. *)
Lemma calculateEMI_annuity (principal annualRate years : Q) (n : Z) :
  0 < principal -> 0 < annualRate -> (0 < n)%Z ->
  numberOfMonths years == inject_Z n ->
  calculateEMI Math_pow principal annualRate years
  == principal * monthlyRate_of annualRate
     * (1 + monthlyRate_of annualRate) ^ n
     / ((1 + monthlyRate_of annualRate) ^ n - 1).
Proof.
  intros Hp Hrate Hn Hmonths. unfold calculateEMI.
  pose proof (monthlyRate_of_pos annualRate Hrate) as Hr.
  assert (Hc : 0 < inject_Z n).
  { change 0 with (inject_Z 0). rewrite <- Zlt_Qlt. exact Hn. }
  assert (Hy : 0 < years).
  { unfold numberOfMonths in Hmonths. lra. }
  case_le principal 0; [lra|]. case_lt annualRate 0; [lra|].
  case_le years 0; [lra|]. cbn [orb].
  set (r := monthlyRate_of annualRate) in *.
  case_eq_q r 0; [lra|].
  pose proof (Math_pow_whole (1 + r) (numberOfMonths years) n
                ltac:(lra) ltac:(lia) Hmonths) as Hpow.
  pose proof (growth_gt_1 r (Z.to_nat n) Hr ltac:(lia)) as Hx.
  rewrite Z2Nat.id in Hx by lia.
  set (g := Math_pow (1 + r) (numberOfMonths years)) in *.
  case_eq_q (g - 1) 0; [lra|].
  rewrite Hpow. reflexivity.
Qed.

(** At a rate of zero the solver returns the straight-line payment. *)
Lemma calculateEMI_zero_rate (principal annualRate years : Q) :
  0 < principal -> annualRate == 0 -> 0 < years ->
  calculateEMI Math_pow principal annualRate years
  = principal / numberOfMonths years.
Proof.
  intros Hp Hrate Hy. unfold calculateEMI.
  pose proof (monthlyRate_of_zero annualRate Hrate) as Hr.
  case_le principal 0; [lra|]. case_lt annualRate 0; [lra|].
  case_le years 0; [lra|]. cbn [orb].
  case_eq_q (monthlyRate_of annualRate) 0; [reflexivity | contradiction].
Qed.

(** The annuity formula in exact arithmetic, with a [Math.pow] that is
    exact at whole exponents: for a fixed principal [> 0] and annual rate
    [> 0] and two terms of [n1 < n2] whole months ([n1 > 0]), the EMI of the
    longer term is strictly smaller and its total interest
    [emi * years * 12 - principal] strictly larger. *)
Lemma annuity_monotone_in_term
    (principal annualRate years1 years2 : Q) (n1 n2 : Z) :
  0 < principal -> 0 < annualRate ->
  numberOfMonths years1 == inject_Z n1 ->
  numberOfMonths years2 == inject_Z n2 ->
  (0 < n1 < n2)%Z ->
  calculateEMI Math_pow principal annualRate years2
  < calculateEMI Math_pow principal annualRate years1
  /\ calculateTotalInterest principal
       (calculateEMI Math_pow principal annualRate years1) years1
     < calculateTotalInterest principal
         (calculateEMI Math_pow principal annualRate years2) years2.
Proof.
  intros Hp Hrate Hm1 Hm2 Hn.
  pose proof (monthlyRate_of_pos annualRate Hrate) as Hr.
  pose proof (calculateEMI_annuity principal annualRate years1 n1
                Hp Hrate ltac:(lia) Hm1) as E1.
  pose proof (calculateEMI_annuity principal annualRate years2 n2
                Hp Hrate ltac:(lia) Hm2) as E2.
  set (r := monthlyRate_of annualRate) in *.
  assert (Hpr : 0 < principal * r) by (apply Qmult_lt_0_compat; assumption).
  pose proof (growth_gt_1 r (Z.to_nat n1) Hr ltac:(lia)) as Hx1.
  pose proof (growth_increasing r (Z.to_nat n1) (Z.to_nat n2) Hr ltac:(lia))
    as Hx12.
  pose proof (interest_factor_increasing r (Z.to_nat n1) (Z.to_nat n2)
                Hr ltac:(lia) ltac:(lia)) as Hint.
  rewrite !Z2Nat.id in * by lia.
  unfold calculateTotalInterest, numberOfMonths in *.
  set (x1 := (1 + r) ^ n1) in *. set (x2 := (1 + r) ^ n2) in *.
  split.
  - rewrite E1, E2.
    assert (F1 : principal * r * x1 / (x1 - 1)
                 == principal * r * (x1 / (x1 - 1))) by (field; lra).
    assert (F2 : principal * r * x2 / (x2 - 1)
                 == principal * r * (x2 / (x2 - 1))) by (field; lra).
    rewrite F1, F2. apply Qmult_lt_l; [exact Hpr|].
    apply annuity_factor_decreasing; assumption.
  - assert (I1 : calculateEMI Math_pow principal annualRate years1 * years1 * 12
                 == principal * r * (inject_Z n1 * x1 / (x1 - 1))).
    { rewrite E1, <- Hm1. field. lra. }
    assert (I2 : calculateEMI Math_pow principal annualRate years2 * years2 * 12
                 == principal * r * (inject_Z n2 * x2 / (x2 - 1))).
    { rewrite E2, <- Hm2. field. lra. }
    rewrite I1, I2.
    assert (principal * r * (inject_Z n1 * x1 / (x1 - 1))
            < principal * r * (inject_Z n2 * x2 / (x2 - 1))).
    { apply Qmult_lt_l; assumption. }
    lra.
Qed.

(** ** Round trip between the EMI solver and the payoff solver *)

(** The annuity payment exceeds the first month's interest. *)
Lemma annuity_above_interest (principal r x : Q) :
  0 < principal -> 0 < r -> 1 < x ->
  principal * r < principal * r * x / (x - 1).
Proof.
  intros Hp Hr Hx.
  assert (Hpr : 0 < principal * r) by (apply Qmult_lt_0_compat; assumption).
  apply Qlt_shift_div_l; [lra|].
  assert (0 < principal * r * 1) by lra.
  lra.
Qed.


(** ** The report of a duration *)

(** The EMI covers the first month's interest. *)
Lemma emi_covers_first_interest (principal annualRate years : Q) (n : Z) :
  0 < principal -> 0 <= annualRate -> (0 < n)%Z ->
  numberOfMonths years == inject_Z n ->
  principal * monthlyRate_of annualRate
  <= calculateEMI Math_pow principal annualRate years.
Proof.
  intros Hp Hrate Hn Hmonths.
  assert (Hc : 0 < inject_Z n).
  { change 0 with (inject_Z 0). rewrite <- Zlt_Qlt. exact Hn. }
  case_eq_q annualRate 0.
  - assert (Hm : 0 < numberOfMonths years) by lra.
    assert (Hy : 0 < years) by (unfold numberOfMonths in Hm; lra).
    rewrite calculateEMI_zero_rate by assumption.
    rewrite (monthlyRate_of_zero annualRate Heq).
    assert (0 < principal / numberOfMonths years)
      by (apply Qlt_shift_div_l; lra).
    lra.
  - assert (Hpos : 0 < annualRate) by lra.
    rewrite (calculateEMI_annuity principal annualRate years n)
      by assumption.
    pose proof (monthlyRate_of_pos annualRate Hpos) as Hr.
    pose proof (growth_gt_1 _ (Z.to_nat n) Hr ltac:(lia)) as Hx.
    rewrite Z2Nat.id in Hx by lia.
    apply Qlt_le_weak. apply annuity_above_interest; assumption.
Qed.

(** The table behind a Report button, for a duration of [n] whole months:
    [n] rows, a balance that never grows, a last row at zero. *)
Lemma report_for_duration_sound
    (fuel : nat) (principal annualRate years : Q) (n : Z) :
  0 < principal -> 0 <= annualRate -> (0 < n)%Z ->
  numberOfMonths years == inject_Z n -> (Z.to_nat n < fuel)%nat ->
  exists report,
    generateAmortizationReportForDuration Math_pow fuel principal annualRate
      years = Some report
    /\ length (report_rows report) = Z.to_nat n
    /\ balance_non_increasing (report_rows report)
    /\ exists front final,
         report_rows report = front ++ [final]
         /\ row_remainingPrincipal final == 0.
Proof.
  intros Hp Hrate Hn Hmonths Hfuel.
  unfold generateAmortizationReportForDuration.
  pose proof (emi_covers_first_interest principal annualRate years n
                Hp Hrate Hn Hmonths) as Hcov.
  destruct (report_table_balance fuel principal
              (calculateEMI Math_pow principal annualRate years)
              (monthlyRate_of annualRate) (years * 12) n)
    as (report & Hreport & Hsorted & _ & Hfinal);
    try assumption; [apply monthlyRate_of_nonneg; exact Hrate|].
  destruct (report_table_rows fuel principal
              (calculateEMI Math_pow principal annualRate years)
              (monthlyRate_of annualRate) (years * 12) n)
    as (report' & Hreport' & Hlen & _); try assumption.
  exists report. rewrite Hreport in Hreport'. injection Hreport' as <-.
  auto.
Qed.

End WholeExponents.

(** Scenario 3 of the specification: 4,000,000 at 8% over 15 years gives a
    table of 180 rows whose balance never grows and ends at zero. *)
Example scenario_report_of_fifteen_years :
  exists report,
    generateAmortizationReportForDuration pow_int 181 4000000 8 15
    = Some report
    /\ length (report_rows report) = 180%nat
    /\ balance_non_increasing (report_rows report)
    /\ exists front final,
         report_rows report = front ++ [final]
         /\ row_remainingPrincipal final == 0.
Proof.
  apply (report_for_duration_sound pow_int pow_int_whole
           181 4000000 8 15 180%Z);
    [reflexivity | discriminate | lia | reflexivity | cbn; lia].
Qed.



Lemma compare_durations_selects_first_minimum_witness :
  exists res,
    calculateTab1 pow_int (Some 1000) (Some 12) (Some 10) None = Some res
    /\ map dur_duration (t1_table res)
       = filter (fun d => Qle_bool d (10 + 0 / 12))
           (candidate_durations (10 + 0 / 12))
    /\ StronglySorted Qle (map dur_duration (t1_table res))
    /\ Forall (row_computed pow_int 1000 12) (t1_table res)
    /\ exists best,
         t1_bestOption res = Some (as_best best)
         /\ first_minimum (t1_table res) best.
Proof.
  eexists. split; [reflexivity|].
  destruct (compare_durations_selects_first_minimum pow_int 1000 12
              (Some 10) None _ eq_refl)
    as (Hrows & Hsorted & _ & Hcomputed & Hbest).
  conjuncts; [exact Hrows | exact Hsorted | exact Hcomputed | exact Hbest].
Defined.

(** A true tie: at a rate of zero every duration costs no interest, and the
    recommendation is the shortest candidate, 5 years, not the 10 years
    selected. *)
Example tie_goes_to_shortest_duration :
  exists res,
    calculateTab1 pow_int (Some 1200) (Some 0) (Some 10) None = Some res
    /\ map (fun row => Qred (dur_interest row)) (t1_table res) = [0; 0]
    /\ map dur_duration (t1_table res) = [5; 10]
    /\ option_map best_duration (t1_bestOption res) = Some 5.
Proof.
  eexists. split; [reflexivity|]. vm_compute. auto.
Qed.

(** C6 at a duration that is not a whole number of months.  For 1.125
    years and no months the rounded month count is 14, and it is the count
    the SIP calculator works with; [calculateEMI] works with the unrounded
    13.5 months: at a rate of zero a principal of 1350 gets the EMI
    1350 / 13.5 = 100, not 1350 / 14. *)
Lemma emi_month_count_is_not_rounded :
  let totalYears := or_zero (Some (9 # 8)) + or_zero None / 12 in
  Math_round (totalYears * 12) = 14%Z
  /\ numberOfMonths totalYears == 27 # 2
  /\ ~ numberOfMonths totalYears == inject_Z (Math_round (totalYears * 12))
  /\ (exists res,
       calculateTab1 pow_int (Some 1350) (Some 0) (Some (9 # 8)) None
       = Some res
       /\ t1_emi res == 100
       /\ ~ t1_emi res == 1350 / inject_Z (Math_round (totalYears * 12)))
  /\ exists sip,
       calculateTab4 pow_int (Some 100) (Some 0) (Some (9 # 8)) None
       = Some sip
       /\ t4_totalMonths sip = 14%Z.
Proof.
  cbn zeta. conjuncts; try reflexivity.
  - discriminate.
  - eexists. split; [reflexivity|]. split; [reflexivity | discriminate].
  - eexists. split; reflexivity.
Qed.

(** ** The EMI and SIP formulas in binary64 *)

Section Binary64Evaluation.

Local Open Scope float_scope.

(** The [Math.pow] of the host.  The evaluations below use its value at
    base 1 only, which is 1. *)
Variable Math_pow : float -> float -> float.

(** C8 on the doubles of the source, at an annual rate of 1e-15 percent (the
    double nearest to it is [1 / 1000000000000000]).  The rate is positive,
    but [1 + monthlyRate] rounds to 1, both powers are 1, the divisor of the
    EMI formula is 0 and the quotient is infinite, so [calculateEMI] returns
    the 0 of its [isFinite] test for a term of one year and for a term of
    two years alike: the EMI of the longer term is not smaller, and its
    total interest, -1000 for both, is not larger. *)
Theorem emi_and_interest_flat_at_tiny_rate :
  Math_pow 1 12 = 1 -> Math_pow 1 24 = 1 ->
  let annualRate := 1 / 1000000000000000 in
  (0 <? annualRate) = true
  /\ 1 + annualRate / 100 / 12 = 1
  /\ Binary64.calculateEMI Math_pow 1000 annualRate 1 = 0
  /\ Binary64.calculateEMI Math_pow 1000 annualRate 2 = 0
  /\ Binary64.calculateTotalInterest 1000
       (Binary64.calculateEMI Math_pow 1000 annualRate 1) 1 = -1000
  /\ Binary64.calculateTotalInterest 1000
       (Binary64.calculateEMI Math_pow 1000 annualRate 2) 2 = -1000
  /\ (Binary64.calculateEMI Math_pow 1000 annualRate 2
      <? Binary64.calculateEMI Math_pow 1000 annualRate 1) = false
  /\ (Binary64.calculateTotalInterest 1000
        (Binary64.calculateEMI Math_pow 1000 annualRate 1) 1
      <? Binary64.calculateTotalInterest 1000
           (Binary64.calculateEMI Math_pow 1000 annualRate 2) 2) = false.
Proof.
  intros H12 H24. cbn zeta.
  conjuncts; vm_compute; rewrite ?H12, ?H24; vm_compute; reflexivity.
Qed.

(** C9 on the doubles of the source, at an annual rate of 1e-15 percent.
    The rate is positive, but [1 + monthlyRate] rounds to 1, the power is 1
    and the difference [Math.pow(1 + monthlyRate, months) - 1] is 0: ten
    years of a monthly 10000 get the future value 0 from
    [calculateSIPReturns], which is less than the 1,200,000 contributed. *)
Theorem sip_future_value_lost_at_tiny_rate :
  Math_pow 1 120 = 1 ->
  let annualRate := 1 / 1000000000000000 in
  (0 <? annualRate) = true
  /\ 1 + annualRate / 100 / 12 = 1
  /\ Binary64.calculateSIPReturns Math_pow 10000 annualRate 120 = 0
  /\ (Binary64.calculateSIPReturns Math_pow 10000 annualRate 120
      <? 10000 * 120) = true.
Proof.
  intros H120. cbn zeta.
  conjuncts; vm_compute; rewrite ?H120; vm_compute; reflexivity.
Qed.

End Binary64Evaluation.

Lemma emi_and_interest_flat_at_tiny_rate_witness :
  Binary64.calculateEMI Binary64.pow_whole 1000 (1 / 1000000000000000) 1
  = 0%float
  /\ Binary64.calculateEMI Binary64.pow_whole 1000 (1 / 1000000000000000) 2
     = 0%float.
Proof.
  destruct (emi_and_interest_flat_at_tiny_rate Binary64.pow_whole
              ltac:(vm_compute; reflexivity) ltac:(vm_compute; reflexivity))
    as (_ & _ & H1 & H2 & _).
  split; [exact H1 | exact H2].
Defined.

Lemma sip_future_value_lost_at_tiny_rate_witness :
  (Binary64.calculateSIPReturns Binary64.pow_whole 10000
     (1 / 1000000000000000) 120
   <? 10000 * 120)%float = true.
Proof.
  destruct (sip_future_value_lost_at_tiny_rate Binary64.pow_whole
              ltac:(vm_compute; reflexivity))
    as (_ & _ & _ & H).
  exact H.
Defined.

(** * Further properties of the engine *)

(** ** The payoff solver *)

(** What the loop branch of [calculateMonthsToClose] returns. *)
Lemma months_to_close_loop_spec (fuel : nat) (principal monthlyRate emi : Q) :
  0 < principal -> 0 < monthlyRate -> principal * monthlyRate < emi ->
  (600 < fuel)%nat ->
  exists m : nat,
    calculateMonthsToClose fuel principal monthlyRate emi
    = Some (Months (Z.of_nat m))
    /\ (1 <= m <= 600)%nat
    /\ (forall i, (i < m)%nat -> 0 < balance_after monthlyRate emi principal i)
    /\ (balance_after monthlyRate emi principal m <= 0 \/ m = 600%nat).
Proof.
  intros Hp Hr He Hfuel.
  rewrite months_to_close_loop_branch by assumption.
  destruct (close_loop_spec monthlyRate emi 600 fuel principal 0)
    as (m & Hres & Hcap & Hone & Hbefore & Hexit);
    try lia; try reflexivity; try assumption.
  exists m. rewrite Hres. cbn [option_map Z.add].
  conjuncts; try lia; [reflexivity | exact Hbefore |].
  destruct Hexit as [Hexit | Hexit]; [left; exact Hexit | right; lia].
Qed.

Lemma Qceiling_pos (x : Q) : 0 < x -> (1 <= Qceiling x)%Z.
Proof.
  intros Hx. pose proof (Qle_ceiling x) as Hc.
  assert (H : inject_Z 0 < inject_Z (Qceiling x))
    by (change (inject_Z 0) with 0; lra).
  rewrite <- Zlt_Qlt in H. lia.
Qed.

Lemma Qdiv_pos (x y : Q) : 0 < x -> 0 < y -> 0 < x / y.
Proof.
  intros Hx Hy. apply Qlt_shift_div_l; lra.
Qed.

(** X1.  With fuel for its loop, [calculateMonthsToClose] returns the month
    count 0 exactly when the payment or the principal is not positive; and
    on every valid loan (payment and principal positive), at any rate, its
    answer is [Infinity] or a count of at least one month.  A zero always
    means "invalid input". *)
Theorem months_to_close_zero_iff_invalid
    (fuel : nat) (principal monthlyRate emi : Q) :
  (600 < fuel)%nat ->
  (calculateMonthsToClose fuel principal monthlyRate emi = Some (Months 0)
   <-> emi <= 0 \/ principal <= 0)
  /\ (0 < emi -> 0 < principal ->
      calculateMonthsToClose fuel principal monthlyRate emi = Some Infinity
      \/ exists m : Z,
           calculateMonthsToClose fuel principal monthlyRate emi
           = Some (Months m)
           /\ (1 <= m)%Z).
Proof.
  intros Hfuel.
  assert (Hvalid : 0 < emi -> 0 < principal ->
            calculateMonthsToClose fuel principal monthlyRate emi
            = Some Infinity
            \/ exists m : Z,
                 calculateMonthsToClose fuel principal monthlyRate emi
                 = Some (Months m)
                 /\ (1 <= m)%Z).
  { intros He Hp. unfold calculateMonthsToClose.
    case_le emi 0; [lra|]. case_le principal 0; [lra|]. cbn [orb].
    case_eq_q monthlyRate 0.
    - right. eexists. split; [reflexivity|].
      apply Qceiling_pos, Qdiv_pos; assumption.
    - case_le emi (principal * monthlyRate); [left; reflexivity|].
      destruct (close_loop_spec monthlyRate emi 600 fuel principal 0)
        as (m & Hres & _ & Hone & _);
        try lia; try reflexivity; try assumption.
      rewrite Hres. cbn [option_map]. right. eexists.
      split; [reflexivity | lia]. }
  split; [|exact Hvalid].
  split.
  - intros Hzero.
    destruct (Qlt_le_dec 0 emi) as [He|He]; [|left; exact He].
    destruct (Qlt_le_dec 0 principal) as [Hp|Hp]; [|right; exact Hp].
    exfalso. destruct (Hvalid He Hp) as [Hinf | (m & Hm & Hone)];
      rewrite Hzero in *; [discriminate|].
    injection Hm as <-. lia.
  - intros Hinvalid. unfold calculateMonthsToClose.
    case_le emi 0; [reflexivity|].
    case_le principal 0; [reflexivity|].
    exfalso. destruct Hinvalid; lra.
Qed.

Lemma months_to_close_zero_iff_invalid_witness :
  calculateMonthsToClose 601 1000 1 1001 = Some Infinity
  \/ exists m : Z,
       calculateMonthsToClose 601 1000 1 1001 = Some (Months m)
       /\ (1 <= m)%Z.
Proof.
  apply (proj2 (months_to_close_zero_iff_invalid 601 1000 1 1001
                  ltac:(lia)));
    reflexivity.
Defined.

(** A larger payment leaves a smaller balance after every period. *)
Lemma balance_antitone_in_payment (r emi1 emi2 principal : Q) (k : nat) :
  0 <= r -> emi1 <= emi2 ->
  balance_after r emi2 principal k <= balance_after r emi1 principal k.
Proof.
  intros Hr Hemi. induction k as [|k IH].
  - apply Qle_refl.
  - change (close_step r emi2 (balance_after r emi2 principal k)
            <= close_step r emi1 (balance_after r emi1 principal k)).
    unfold close_step.
    set (b1 := balance_after r emi1 principal k) in *.
    set (b2 := balance_after r emi2 principal k) in *.
    assert (b2 * r <= b1 * r) by (apply Qmult_le_compat_r; assumption).
    lra.
Qed.

(** The month counts of two payments, the larger payment second. *)
Lemma months_antitone (fuel : nat) (principal monthlyRate emi1 emi2 : Q) :
  0 < principal -> 0 <= monthlyRate ->
  principal * monthlyRate < emi1 -> emi1 <= emi2 -> (600 < fuel)%nat ->
  exists m1 m2 : Z,
    calculateMonthsToClose fuel principal monthlyRate emi1 = Some (Months m1)
    /\ calculateMonthsToClose fuel principal monthlyRate emi2
       = Some (Months m2)
    /\ (1 <= m2 <= m1)%Z.
Proof.
  intros Hp Hr Hcov Hemi Hfuel.
  assert (Hpr : 0 <= principal * monthlyRate)
    by (apply Qmult_le_0_compat; lra).
  assert (He1 : 0 < emi1) by lra.
  case_eq_q monthlyRate 0.
  - unfold calculateMonthsToClose.
    case_le emi1 0; [lra|]. case_le emi2 0; [lra|].
    case_le principal 0; [lra|]. cbn [orb].
    apply Qeq_bool_iff in Heq. rewrite Heq.
    eexists _, _. split; [reflexivity|]. split; [reflexivity|].
    unfold Math_ceil. split.
    + apply Qceiling_pos, Qdiv_pos; lra.
    + apply Qceiling_resp_le.
      apply Qle_shift_div_l; [lra|].
      assert (E : principal / emi2 * emi1 == principal * (emi1 / emi2))
        by (field; lra).
      rewrite E. rewrite <- (Qmult_1_r principal) at 2.
      apply Qmult_le_compat_left; [lra|].
      apply Qle_shift_div_r; lra.
  - assert (Hrpos : 0 < monthlyRate) by lra.
    destruct (months_to_close_loop_spec fuel principal monthlyRate emi1)
      as (m1 & Hres1 & Hrange1 & Hbefore1 & Hexit1); try assumption.
    destruct (months_to_close_loop_spec fuel principal monthlyRate emi2)
      as (m2 & Hres2 & Hrange2 & Hbefore2 & Hexit2); try assumption; [lra|].
    exists (Z.of_nat m1), (Z.of_nat m2).
    split; [exact Hres1|]. split; [exact Hres2|]. split; [lia|].
    destruct (le_lt_dec m2 m1) as [Hle | Hgt]; [lia|]. exfalso.
    pose proof (Hbefore2 m1 Hgt) as Hpos.
    pose proof (balance_antitone_in_payment monthlyRate emi1 emi2 principal
                  m1 Hr Hemi) as Hmono.
    destruct Hexit1 as [Hexit1 | Hexit1]; [lra | lia].
Qed.

(** X2.  Raising the payment never lengthens the loan: for a principal
    [> 0], a rate [>= 0] and two payments above the first month's interest,
    the larger payment gets a month count that is at most the count of the
    smaller one (and at least one month). *)
Theorem months_to_close_antitone_in_payment
    (fuel : nat) (principal monthlyRate emi1 emi2 : Q) :
  0 < principal -> 0 <= monthlyRate ->
  principal * monthlyRate < emi1 -> emi1 <= emi2 -> (600 < fuel)%nat ->
  exists m1 m2 : Z,
    calculateMonthsToClose fuel principal monthlyRate emi1 = Some (Months m1)
    /\ calculateMonthsToClose fuel principal monthlyRate emi2
       = Some (Months m2)
    /\ (1 <= m2 <= m1)%Z.
Proof.
  apply months_antitone.
Qed.

Lemma months_to_close_antitone_in_payment_witness :
  exists m1 m2 : Z,
    calculateMonthsToClose 601 1000 1 1001 = Some (Months m1)
    /\ calculateMonthsToClose 601 1000 1 1500 = Some (Months m2)
    /\ (1 <= m2 <= m1)%Z.
Proof.
  apply (months_to_close_antitone_in_payment 601 1000 1 1001 1500);
    [reflexivity | discriminate | reflexivity | discriminate | lia].
Defined.

Lemma inject_Z_pos (n : Z) : 0 < inject_Z n <-> (0 < n)%Z.
Proof.
  change 0 with (inject_Z 0). rewrite <- Zlt_Qlt. reflexivity.
Qed.

Section EmiProperties.

Variable Math_pow : Q -> Q -> Q.
Hypothesis Math_pow_whole :
  forall (b e : Q) (n : Z),
    0 < b -> (0 <= n)%Z -> e == inject_Z n -> Math_pow b e == b ^ n.

(** ** The EMI solver *)


End EmiProperties.

(** A period does not raise the balance when the payment covers the
    interest on it, and the payment then covers the interest on the new
    balance too. *)
Lemma close_step_decreases_weak (r emi b : Q) :
  0 <= r -> b * r <= emi ->
  close_step r emi b <= b /\ close_step r emi b * r <= emi.
Proof.
  intros Hr Hb. unfold close_step.
  assert (Hle : b + b * r - emi <= b) by lra.
  split; [exact Hle|].
  apply Qle_trans with (b * r); [|exact Hb].
  apply Qmult_le_compat_r; lra.
Qed.

(** ** The remaining balance after some months *)

(** The loop condition [i < months] only looks at the ceiling of
    [months]. *)
Lemma index_lt_months (i : Z) (months : Q) :
  Qlt_bool (inject_Z i) months = (i <? Qceiling months)%Z.
Proof.
  case_lt (inject_Z i) months; symmetry.
  - apply Z.ltb_lt. pose proof (Qle_ceiling months) as Hc.
    assert (H : inject_Z i < inject_Z (Qceiling months)) by lra.
    rewrite <- Zlt_Qlt in H. exact H.
  - apply Z.ltb_ge. pose proof (Qceiling_lt months) as Hc.
    assert (H : inject_Z (Qceiling months - 1) < inject_Z i) by lra.
    rewrite <- Zlt_Qlt in H. lia.
Qed.

Lemma remaining_loop_bounds (r emi months : Q) :
  forall (budget fuel : nat) (i : Z) (remaining : Q),
    budget = Z.to_nat (Qceiling months - i) ->
    (budget < fuel)%nat ->
    exists v,
      remaining_loop fuel r emi months i remaining = Some v
      /\ 0 <= v
      /\ (0 <= r -> 0 <= remaining -> remaining * r <= emi ->
          v <= remaining).
Proof.
  induction budget as [|budget IH]; intros fuel i remaining Hb Hfuel;
    (destruct fuel as [|fuel]; [lia|]); cbn [remaining_loop];
    rewrite index_lt_months.
  - assert (Hge : (i <? Qceiling months)%Z = false) by (apply Z.ltb_ge; lia).
    rewrite Hge. eexists. split; [reflexivity|].
    split; [apply Math_max_0_nonneg|].
    intros _ Hrem _. apply Math_max_0_le; lra.
  - assert (Hlt : (i <? Qceiling months)%Z = true) by (apply Z.ltb_lt; lia).
    rewrite Hlt.
    case_le (remaining + remaining * r - emi) 0.
    + exists 0. split; [reflexivity|]. split; [lra|]. intros; assumption.
    + destruct (IH fuel (i + 1)%Z (remaining + remaining * r - emi))
        as (v & Hv & Hnonneg & Hbound); try lia.
      exists v. split; [exact Hv|]. split; [exact Hnonneg|].
      intros Hr Hrem Hcov.
      destruct (close_step_decreases_weak r emi remaining Hr Hcov)
        as [Hdown Hcov'].
      unfold close_step in Hdown, Hcov'.
      apply Qle_trans with (remaining + remaining * r - emi);
        [apply Hbound; lra | exact Hdown].
Qed.

(** X6.  [calculateRemainingLoan] never reports a negative balance, whatever
    its arguments; and when the payment covers the interest on the opening
    balance (rate, balance and number of months not negative) it never
    reports more than the opening balance. *)
Theorem remaining_loan_between_zero_and_principal
    (fuel : nat) (principal monthlyRate emi months : Q) :
  (Z.to_nat (Qceiling months) < fuel)%nat ->
  exists v,
    calculateRemainingLoan fuel principal monthlyRate emi months = Some v
    /\ 0 <= v
    /\ (0 <= principal -> 0 <= monthlyRate ->
        principal * monthlyRate <= emi -> 0 <= months ->
        v <= principal).
Proof.
  intros Hfuel. unfold calculateRemainingLoan.
  case_eq_q monthlyRate 0.
  - eexists. split; [reflexivity|]. split; [apply Math_max_0_nonneg|].
    intros Hp _ Hcov Hmonths. apply Math_max_0_le; [exact Hp|].
    assert (0 <= emi * months) by (apply Qmult_le_0_compat; [nra | lra]).
    lra.
  - destruct (remaining_loop_bounds monthlyRate emi months
                (Z.to_nat (Qceiling months)) fuel 0 principal)
      as (v & Hv & Hnonneg & Hbound); [f_equal; lia | exact Hfuel |].
    exists v. split; [exact Hv|]. split; [exact Hnonneg|].
    intros Hp Hr Hcov _. apply Hbound; assumption.
Qed.

Lemma remaining_loan_between_zero_and_principal_witness :
  exists v,
    calculateRemainingLoan 4 1000 1 1500 3 = Some v
    /\ 0 <= v
    /\ (0 <= 1000 -> 0 <= 1 -> 1000 * 1 <= 1500 -> 0 <= 3 -> v <= 1000).
Proof.
  apply (remaining_loan_between_zero_and_principal 4 1000 1 1500 3).
  cbn. lia.
Defined.

(** The loop returns 0 at the first balance that is not positive. *)
Lemma remaining_loop_hits_zero (r emi : Q) (total : Z) :
  forall (d fuel : nat) (i : Z) (remaining : Q),
    (d < fuel)%nat ->
    (i + Z.of_nat d < total)%Z ->
    (forall j, (1 <= j <= d)%nat -> 0 < balance_after r emi remaining j) ->
    balance_after r emi remaining (S d) <= 0 ->
    remaining_loop fuel r emi (inject_Z total) i remaining = Some 0.
Proof.
  induction d as [|d IH]; intros fuel i remaining Hfuel Hi Hbefore Hhit;
    (destruct fuel as [|fuel]; [lia|]); cbn [remaining_loop];
    rewrite index_lt_months, Qceiling_Z;
    (assert (Hlt : (i <? total)%Z = true) by (apply Z.ltb_lt; lia));
    rewrite Hlt.
  - apply Qle_bool_iff in Hhit. cbn in Hhit. unfold close_step in Hhit.
    rewrite Hhit. reflexivity.
  - pose proof (Hbefore 1%nat ltac:(lia)) as Hfirst.
    change (balance_after r emi remaining 1)
      with (remaining + remaining * r - emi) in Hfirst.
    apply Qle_bool_false in Hfirst. rewrite Hfirst.
    apply IH; try lia.
    + intros j Hj.
      change (remaining + remaining * r - emi)
        with (close_step r emi remaining).
      rewrite <- balance_after_shift. apply Hbefore. lia.
    + change (remaining + remaining * r - emi)
        with (close_step r emi remaining).
      rewrite <- balance_after_shift. exact Hhit.
Qed.

(** X7.  The two solvers agree: when [calculateMonthsToClose] answers [m]
    months for a valid loan without hitting its cap ([m < 600], or a rate of
    zero), [calculateRemainingLoan] finds nothing left after [m] months. *)
Theorem remaining_loan_zero_after_payoff
    (fuel : nat) (principal monthlyRate emi : Q) (m : Z) :
  0 < principal -> 0 <= monthlyRate -> principal * monthlyRate < emi ->
  (600 < fuel)%nat ->
  calculateMonthsToClose fuel principal monthlyRate emi = Some (Months m) ->
  (m < 600)%Z \/ monthlyRate == 0 ->
  exists v,
    calculateRemainingLoan fuel principal monthlyRate emi (inject_Z m) = Some v
    /\ v == 0.
Proof.
  intros Hp Hr Hcov Hfuel Hmonths Hcap.
  assert (Hpr : 0 <= principal * monthlyRate)
    by (apply Qmult_le_0_compat; lra).
  assert (He : 0 < emi) by lra.
  unfold calculateRemainingLoan.
  case_eq_q monthlyRate 0.
  - unfold calculateMonthsToClose in Hmonths.
    revert Hmonths.
    case_le emi 0; [lra|]. case_le principal 0; [lra|]. cbn [orb].
    apply Qeq_bool_iff in Heq. rewrite Heq. intros Hmonths.
    injection Hmonths as <-. unfold Math_ceil.
    eexists. split; [reflexivity|].
    pose proof (Qle_ceiling (principal / emi)) as Hc.
    assert (Hpaid : principal <= emi * inject_Z (Qceiling (principal / emi))).
    { assert (E : principal == emi * (principal / emi)) by (field; lra).
      rewrite E at 1. apply Qmult_le_compat_left; lra. }
    unfold Math_max.
    case_le 0 (principal - emi * inject_Z (Qceiling (principal / emi))); lra.
  - assert (Hrpos : 0 < monthlyRate) by lra.
    destruct (months_to_close_loop_spec fuel principal monthlyRate emi)
      as (k & Hres & Hrange & Hbefore & Hexit); try assumption.
    rewrite Hres in Hmonths. injection Hmonths as <-.
    assert (Hk : (k < 600)%nat) by (destruct Hcap as [H|H]; [lia | lra]).
    destruct Hexit as [Hexit | Hexit]; [|lia].
    destruct k as [|d]; [lia|].
    exists 0. split; [|reflexivity].
    apply (remaining_loop_hits_zero monthlyRate emi (Z.of_nat (S d)) d);
      try lia; [|exact Hexit].
    intros j Hj. apply Hbefore. lia.
Qed.

Lemma remaining_loan_zero_after_payoff_witness :
  exists v,
    calculateRemainingLoan 601 1000 0 300 (inject_Z 4) = Some v /\ v == 0.
Proof.
  apply (remaining_loan_zero_after_payoff 601 1000 0 300 4%Z);
    [reflexivity | discriminate | reflexivity | lia | reflexivity
    | right; reflexivity].
Defined.

(** ** The remaining-loan tab *)

(** What [calculateTab2] has checked and computed when it shows a result. *)
Lemma calculateTab2_shown (fuel : nat)
    (currentPrincipal currentInterest currentEmi : option Q)
    (data : Tab2Data) :
  (600 < fuel)%nat ->
  calculateTab2 fuel currentPrincipal currentInterest currentEmi = Shown data ->
  exists m : Z,
    currentPrincipal = Some (t2_principal data)
    /\ currentInterest = Some (t2_interest data)
    /\ currentEmi = Some (t2_currentEmi data)
    /\ t2_monthlyRate data = monthlyRate_of (t2_interest data)
    /\ 0 < t2_principal data
    /\ 0 <= t2_monthlyRate data
    /\ t2_principal data * t2_monthlyRate data < t2_currentEmi data
    /\ calculateMonthsToClose fuel (t2_principal data) (t2_monthlyRate data)
         (t2_currentEmi data) = Some (Months m)
    /\ t2_monthsToComplete data = Months m
    /\ (1 <= m)%Z
    /\ t2_totalInterest data
       = Num (t2_currentEmi data * inject_Z m - t2_principal data).
Proof.
  intros Hfuel. unfold calculateTab2.
  destruct currentPrincipal as [principal|]; [|discriminate].
  destruct currentInterest as [interest|]; [|discriminate].
  destruct currentEmi as [emi|]; [|discriminate].
  case_le principal 0; [discriminate|].
  case_lt interest 0; [discriminate|].
  case_le emi 0; [discriminate|]. cbn [orb].
  pose proof (monthlyRate_of_nonneg interest Hlt) as Hr.
  assert (Hcov : Qle_bool emi (principal * monthlyRate_of interest)
                 && Qlt_bool 0 (monthlyRate_of interest) = false ->
                 principal * monthlyRate_of interest < emi).
  { case_le emi (principal * monthlyRate_of interest); [|intros _; exact Hle1].
    case_lt 0 (monthlyRate_of interest); [discriminate|]. intros _.
    assert (Hz : monthlyRate_of interest == 0) by lra.
    rewrite Hz. lra. }
  destruct (Qle_bool emi (principal * monthlyRate_of interest)
            && Qlt_bool 0 (monthlyRate_of interest)); [discriminate|].
  specialize (Hcov eq_refl).
  destruct (months_antitone fuel principal (monthlyRate_of interest) emi emi)
    as (m & m' & Hres & _ & Hm); try assumption; [lra|].
  rewrite Hres. intros Hshown. injection Hshown as <-.
  exists m. cbn. conjuncts; try reflexivity; try assumption. lia.
Qed.

(** X8.  [calculateTab2] never stores an infinite month count: with fuel for
    the payoff loop it always returns, and whenever it shows a result the
    month count it stores is a whole number of at least one month, the
    payment exceeds the first month's interest, and the stored total
    interest is the finite number [emi * months - principal]. *)
Theorem tab2_months_are_finite (fuel : nat)
    (currentPrincipal currentInterest currentEmi : option Q) :
  (600 < fuel)%nat ->
  calculateTab2 fuel currentPrincipal currentInterest currentEmi <> Starved
  /\ forall data,
       calculateTab2 fuel currentPrincipal currentInterest currentEmi
       = Shown data ->
       exists m : Z,
         t2_monthsToComplete data = Months m
         /\ (1 <= m)%Z
         /\ t2_principal data * t2_monthlyRate data < t2_currentEmi data
         /\ t2_totalInterest data
            = Num (t2_currentEmi data * inject_Z m - t2_principal data).
Proof.
  intros Hfuel. split.
  - unfold calculateTab2.
    destruct currentPrincipal as [principal|]; [|discriminate].
    destruct currentInterest as [interest|]; [|discriminate].
    destruct currentEmi as [emi|]; [|discriminate].
    case_le principal 0; [discriminate|].
    case_lt interest 0; [discriminate|].
    case_le emi 0; [discriminate|]. cbn [orb].
    pose proof (monthlyRate_of_nonneg interest Hlt) as Hr.
    case_le emi (principal * monthlyRate_of interest).
    + case_lt 0 (monthlyRate_of interest); [discriminate|]. cbn [andb].
      assert (Hz : monthlyRate_of interest == 0) by lra.
      destruct (months_antitone fuel principal (monthlyRate_of interest)
                  emi emi) as (m & _ & Hres & _);
        try assumption; try lra; [rewrite Hz; lra|].
      rewrite Hres. discriminate.
    + cbn [andb].
      destruct (months_antitone fuel principal (monthlyRate_of interest)
                  emi emi) as (m & _ & Hres & _); try assumption; try lra.
      rewrite Hres. discriminate.
  - intros data Hshown.
    destruct (calculateTab2_shown fuel _ _ _ data Hfuel Hshown)
      as (m & _ & _ & _ & _ & _ & _ & Hcov & _ & Hmonths & Hm & Hinterest).
    exists m. auto.
Qed.

Lemma tab2_months_are_finite_witness :
  calculateTab2 601 (Some 1000) (Some 0) (Some 300) <> Starved.
Proof.
  apply (tab2_months_are_finite 601 (Some 1000) (Some 0) (Some 300)). lia.
Defined.

(** What [calculateAdditionalPayment] computes from the data of
    [calculateTab2] and a positive additional amount. *)
Lemma calculateAdditionalPayment_shown (fuel : nat)
    (currentPrincipal currentInterest currentEmi : option Q)
    (data : Tab2Data) (additionalAmount : Q) :
  (600 < fuel)%nat ->
  calculateTab2 fuel currentPrincipal currentInterest currentEmi = Shown data ->
  0 < additionalAmount ->
  exists (res : AdditionalResult) (m1 m2 : Z),
    calculateAdditionalPayment fuel (Some data) (Some additionalAmount)
    = Shown res
    /\ t2_monthsToComplete data = Months m1
    /\ add_newMonthsToComplete res = Months m2
    /\ (1 <= m2 <= m1)%Z
    /\ add_newEmi res = t2_currentEmi data + additionalAmount
    /\ add_monthsSaved res = Num (inject_Z m1 - inject_Z m2)
    /\ add_reportData res
       = mkTab2ReportData (t2_principal data) (t2_interest data)
           (t2_currentEmi data) (t2_currentEmi data + additionalAmount)
           (t2_monthlyRate data) (Months m1) (Months m2).
Proof.
  intros Hfuel Hshown Hadd.
  destruct (calculateTab2_shown fuel _ _ _ data Hfuel Hshown)
    as (m & _ & _ & _ & _ & Hp & Hr & Hcov & Hres & Hmonths & Hm & _).
  destruct (months_antitone fuel (t2_principal data) (t2_monthlyRate data)
              (t2_currentEmi data) (t2_currentEmi data + additionalAmount))
    as (m1 & m2 & Hres1 & Hres2 & Hle); try assumption; [lra|].
  assert (m1 = m) by congruence. subst m1.
  unfold calculateAdditionalPayment.
  case_lt additionalAmount 0; [lra|].
  case_eq_q additionalAmount 0; [lra|].
  rewrite Hres2, Hmonths. eexists _, m, m2.
  split; [reflexivity|]. cbn. conjuncts; try reflexivity. lia. lia.
Qed.

(** X9.  An additional payment never costs time: on the data of
    [calculateTab2] and an additional amount [> 0],
    [calculateAdditionalPayment] shows a new payment above the current one,
    a new month count between 1 and the current count, and a number of
    months saved, [current - new], that is not negative. *)
Theorem additional_payment_never_costs_months (fuel : nat)
    (currentPrincipal currentInterest currentEmi : option Q)
    (data : Tab2Data) (additionalAmount : Q) :
  (600 < fuel)%nat ->
  calculateTab2 fuel currentPrincipal currentInterest currentEmi = Shown data ->
  0 < additionalAmount ->
  exists (res : AdditionalResult) (m1 m2 : Z),
    calculateAdditionalPayment fuel (Some data) (Some additionalAmount)
    = Shown res
    /\ t2_monthsToComplete data = Months m1
    /\ add_newMonthsToComplete res = Months m2
    /\ (1 <= m2 <= m1)%Z
    /\ t2_currentEmi data < add_newEmi res
    /\ add_monthsSaved res = Num (inject_Z (m1 - m2))
    /\ (0 <= m1 - m2)%Z.
Proof.
  intros Hfuel Hshown Hadd.
  destruct (calculateAdditionalPayment_shown fuel _ _ _ data additionalAmount
              Hfuel Hshown Hadd)
    as (res & m1 & m2 & Hres & Hm1 & Hm2 & Hle & Hemi & Hsaved & _).
  exists res, m1, m2. conjuncts; try assumption; try lia.
  - rewrite Hemi. lra.
  - rewrite Hsaved. unfold Zminus.
    rewrite inject_Z_plus, inject_Z_opp. reflexivity.
Qed.

Lemma additional_payment_never_costs_months_witness :
  exists (data : Tab2Data) (res : AdditionalResult) (m1 m2 : Z),
    calculateTab2 601 (Some 1000) (Some 0) (Some 300) = Shown data
    /\ calculateAdditionalPayment 601 (Some data) (Some 100) = Shown res
    /\ t2_monthsToComplete data = Months m1
    /\ add_newMonthsToComplete res = Months m2
    /\ (1 <= m2 <= m1)%Z
    /\ t2_currentEmi data < add_newEmi res
    /\ add_monthsSaved res = Num (inject_Z (m1 - m2))
    /\ (0 <= m1 - m2)%Z.
Proof.
  eexists.
  destruct (additional_payment_never_costs_months 601
              (Some 1000) (Some 0) (Some 300) _ 100
              ltac:(lia) eq_refl ltac:(reflexivity))
    as (res & m1 & m2 & H).
  exists res, m1, m2. split; [reflexivity | exact H].
Defined.

(** The table of one scenario of the remaining-loan tab. *)
Lemma remaining_loan_report_table (fuel : nat) (data : Tab2ReportData)
    (isCurrent : bool) (emi : Q) (m : Z) :
  emi = (if isCurrent then rd_currentEmi data else rd_newEmi data) ->
  Months m = (if isCurrent then rd_monthsToComplete data
              else rd_newMonthsToComplete data) ->
  0 < rd_principal data -> 0 <= rd_monthlyRate data ->
  rd_principal data * rd_monthlyRate data <= emi ->
  (1 <= m)%Z -> (Z.to_nat m < fuel)%nat ->
  exists report,
    generateRemainingLoanReport fuel (Some data) isCurrent = Shown report
    /\ length (report_rows report) = Z.to_nat m
    /\ balance_non_increasing (report_rows report)
    /\ exists front final,
         report_rows report = front ++ [final]
         /\ row_remainingPrincipal final == 0.
Proof.
  intros Hemi Hmonths Hp Hr Hcov Hm Hfuel.
  unfold generateRemainingLoanReport. rewrite <- Hemi, <- Hmonths.
  destruct (report_table_balance fuel (rd_principal data) emi
              (rd_monthlyRate data) (inject_Z m) m)
    as (report & Hreport & Hsorted & _ & Hfinal);
    try assumption; try lia; [reflexivity|].
  destruct (report_table_rows fuel (rd_principal data) emi
              (rd_monthlyRate data) (inject_Z m) m)
    as (report' & Hreport' & Hlen & _); try assumption; try lia;
    [reflexivity|].
  rewrite Hreport. exists report. rewrite Hreport in Hreport'.
  injection Hreport' as <-. auto.
Qed.

(** X10.  Both reports of the remaining-loan tab close the loan.  On the
    data of [calculateTab2] and [calculateAdditionalPayment], the report of
    either scenario (current payment, or with the additional amount) has
    exactly as many rows as the month count of that scenario, a balance
    that never grows, and a last row at zero - also when the month count
    was cut off at the cap, where the last row pays off what is left. *)
Theorem remaining_loan_reports_close_the_loan (fuel fuel' : nat)
    (currentPrincipal currentInterest currentEmi : option Q)
    (data : Tab2Data) (additionalAmount : Q) (res : AdditionalResult)
    (isCurrent : bool) :
  (600 < fuel)%nat ->
  calculateTab2 fuel currentPrincipal currentInterest currentEmi = Shown data ->
  calculateAdditionalPayment fuel (Some data) (Some additionalAmount)
  = Shown res ->
  exists m : Z,
    (if isCurrent then t2_monthsToComplete data
     else add_newMonthsToComplete res) = Months m
    /\ ((Z.to_nat m < fuel')%nat ->
        exists report,
          generateRemainingLoanReport fuel' (Some (add_reportData res))
            isCurrent = Shown report
          /\ length (report_rows report) = Z.to_nat m
          /\ balance_non_increasing (report_rows report)
          /\ exists front final,
               report_rows report = front ++ [final]
               /\ row_remainingPrincipal final == 0).
Proof.
  intros Hfuel Hshown Hres.
  assert (Hadd : 0 < additionalAmount).
  { unfold calculateAdditionalPayment in Hres. revert Hres.
    case_lt additionalAmount 0; [discriminate|].
    case_eq_q additionalAmount 0; [discriminate|]. intros _. lra. }
  destruct (calculateTab2_shown fuel _ _ _ data Hfuel Hshown)
    as (m & _ & _ & _ & _ & Hp & Hr & Hcov & _ & Hmonths & Hm & _).
  destruct (calculateAdditionalPayment_shown fuel _ _ _ data additionalAmount
              Hfuel Hshown Hadd)
    as (res' & m1 & m2 & Hres' & Hm1 & Hm2 & Hle & Hemi & _ & Hdata).
  assert (res' = res) by congruence. subst res'.
  assert (m1 = m) by congruence. subst m1.
  exists (if isCurrent then m else m2).
  split; [destruct isCurrent; assumption|].
  intros Hfuel'.
  apply (remaining_loan_report_table fuel' (add_reportData res) isCurrent
           (if isCurrent then t2_currentEmi data
            else t2_currentEmi data + additionalAmount));
    rewrite ?Hdata; cbn; try assumption;
    destruct isCurrent; try reflexivity; try lra; try lia.
Qed.

Lemma remaining_loan_reports_close_the_loan_witness :
  exists (data : Tab2Data) (res : AdditionalResult) (m : Z),
    calculateTab2 601 (Some 1000) (Some 0) (Some 300) = Shown data
    /\ calculateAdditionalPayment 601 (Some data) (Some 100) = Shown res
    /\ add_newMonthsToComplete res = Months m
    /\ ((Z.to_nat m < 601)%nat ->
        exists report,
          generateRemainingLoanReport 601 (Some (add_reportData res)) false
          = Shown report
          /\ length (report_rows report) = Z.to_nat m
          /\ balance_non_increasing (report_rows report)
          /\ exists front final,
               report_rows report = front ++ [final]
               /\ row_remainingPrincipal final == 0).
Proof.
  eexists. eexists.
  destruct (remaining_loan_reports_close_the_loan 601 601
              (Some 1000) (Some 0) (Some 300) _ 100 _ false
              ltac:(lia) eq_refl eq_refl)
    as (m & H).
  exists m. split; [reflexivity|]. split; [reflexivity | exact H].
Defined.

Section ReportProperties.

Variable Math_pow : Q -> Q -> Q.
Hypothesis Math_pow_whole :
  forall (b e : Q) (n : Z),
    0 < b -> (0 <= n)%Z -> e == inject_Z n -> Math_pow b e == b ^ n.

(** ** The reports of the EMI tab *)

(** What [calculateTab1] has checked when it stores its data. *)
Lemma calculateTab1_data_stored
    (principal1 interest1 years1 months1 : option Q) (data : Tab1Data) :
  calculateTab1_data Math_pow principal1 interest1 years1 months1 = Some data ->
  principal1 = Some (td_principal data)
  /\ interest1 = Some (td_annualRate data)
  /\ td_years data = or_zero years1 + or_zero months1 / 12
  /\ td_emi data
     = calculateEMI Math_pow (td_principal data) (td_annualRate data)
         (td_years data)
  /\ 0 < td_principal data /\ 0 <= td_annualRate data /\ 0 < td_years data.
Proof.
  unfold calculateTab1_data, calculateTab1.
  destruct principal1 as [principal|]; [|discriminate].
  destruct interest1 as [interest|]; [|discriminate].
  case_le principal 0; [discriminate|].
  case_lt interest 0; [discriminate|]. cbn [orb].
  case_le (or_zero years1 + or_zero months1 / 12) 0; [discriminate|].
  intros Hdata. injection Hdata as <-. cbn. auto 10.
Qed.


(** The table behind a Report button when the EMI computed for it covers
    the first month's interest. *)
Lemma report_for_duration_covered
    (fuel : nat) (principal annualRate years : Q) (n : Z) :
  0 < principal -> 0 <= annualRate -> (0 < n)%Z ->
  numberOfMonths years == inject_Z n -> (Z.to_nat n < fuel)%nat ->
  principal * monthlyRate_of annualRate
  <= calculateEMI Math_pow principal annualRate years ->
  exists report,
    generateAmortizationReportForDuration Math_pow fuel principal annualRate
      years = Some report
    /\ length (report_rows report) = Z.to_nat n
    /\ balance_non_increasing (report_rows report)
    /\ exists front final,
         report_rows report = front ++ [final]
         /\ row_remainingPrincipal final == 0.
Proof.
  intros Hp Hrate Hn Hmonths Hfuel Hcov.
  unfold generateAmortizationReportForDuration.
  destruct (report_table_balance fuel principal
              (calculateEMI Math_pow principal annualRate years)
              (monthlyRate_of annualRate) (years * 12) n)
    as (report & Hreport & Hsorted & _ & Hfinal);
    try assumption; [apply monthlyRate_of_nonneg; exact Hrate|].
  destruct (report_table_rows fuel principal
              (calculateEMI Math_pow principal annualRate years)
              (monthlyRate_of annualRate) (years * 12) n)
    as (report' & Hreport' & Hlen & _); try assumption.
  exists report. rewrite Hreport in Hreport'. injection Hreport' as <-.
  auto.
Qed.

(** X12.  The Report button of a duration closes the loan whenever the EMI
    it computed covers the first month's interest: for a principal [> 0], a
    rate [>= 0] and a duration of [n > 0] whole months,
    [generateAmortizationReportForDuration] then builds a table of exactly
    [n] rows whose balance never grows and whose last row is at zero,
    whatever [Math.pow] returned. *)
Theorem duration_report_closes_the_loan
    (fuel : nat) (principal annualRate years : Q) (n : Z) :
  0 < principal -> 0 <= annualRate -> (0 < n)%Z ->
  numberOfMonths years == inject_Z n -> (Z.to_nat n < fuel)%nat ->
  principal * monthlyRate_of annualRate
  <= calculateEMI Math_pow principal annualRate years ->
  exists report,
    generateAmortizationReportForDuration Math_pow fuel principal annualRate
      years = Some report
    /\ length (report_rows report) = Z.to_nat n
    /\ balance_non_increasing (report_rows report)
    /\ exists front final,
         report_rows report = front ++ [final]
         /\ row_remainingPrincipal final == 0.
Proof.
  apply report_for_duration_covered.
Qed.

End ReportProperties.


Lemma duration_report_closes_the_loan_witness :
  exists report,
    generateAmortizationReportForDuration pow_int 13 1000 12 1 = Some report
    /\ length (report_rows report) = Z.to_nat 12
    /\ balance_non_increasing (report_rows report)
    /\ exists front final,
         report_rows report = front ++ [final]
         /\ row_remainingPrincipal final == 0.
Proof.
  apply (duration_report_closes_the_loan pow_int 13 1000 12 1 12%Z);
    [reflexivity | discriminate | lia | reflexivity | cbn; lia |].
  vm_compute. discriminate.
Defined.

(** ** Duration display *)

Lemma Qfloor_twelfths (k : Z) : Qfloor (inject_Z k / 12) = (k / 12)%Z.
Proof.
  symmetry. apply (Zdiv_Qdiv k 12).
Qed.

(** X13.  Entering a duration and displaying it round-trips: for whole
    numbers [y] of years and [m] of months, the duration [y + m / 12] is
    displayed with [y + m div 12] years and [m mod 12] months; so for
    [0 <= m <= 11] the display shows exactly the years and months entered,
    and months beyond 11 are carried into the years. *)
Theorem duration_display_round_trip (y m : Z) :
  duration_parts (inject_Z y + inject_Z m / 12)
  = ((y + m / 12)%Z, (m mod 12)%Z)
  /\ ((0 <= m <= 11)%Z ->
      duration_parts (inject_Z y + inject_Z m / 12) = (y, m)).
Proof.
  assert (Hparts : duration_parts (inject_Z y + inject_Z m / 12)
                   = ((y + m / 12)%Z, (m mod 12)%Z)).
  { unfold duration_parts, Math_floor.
    assert (Hfloor : Qfloor (inject_Z y + inject_Z m / 12) = (y + m / 12)%Z).
    { assert (E : inject_Z y + inject_Z m / 12 == inject_Z (y * 12 + m) / 12).
      { rewrite inject_Z_plus, inject_Z_mult. field. }
      rewrite E, Qfloor_twelfths. apply Z.div_add_l. lia. }
    rewrite Hfloor. f_equal.
    apply Math_round_whole.
    rewrite (Z.mod_eq m 12) by lia.
    unfold Z.sub. rewrite !inject_Z_plus, inject_Z_opp, inject_Z_mult.
    field. }
  split; [exact Hparts|].
  intros Hm. rewrite Hparts.
  rewrite Z.div_small, Z.mod_small by lia. f_equal. lia.
Qed.

Lemma duration_display_round_trip_witness :
  duration_parts (inject_Z 7 + inject_Z 5 / 12) = (7%Z, 5%Z).
Proof.
  apply (proj2 (duration_display_round_trip 7 5)). lia.
Defined.

(** ** The chart of the amortization table *)

(** The step of the last month samples the chart at a balance of zero and a
    refinanced EMI of zero. *)
Lemma report_month_last_sample (emi monthlyRate totalMonths : Q) (month : Z)
    (st st' : ReportState) (row : AmortizationRow) (sample : option ChartPoint) :
  inject_Z month == totalMonths ->
  report_month emi monthlyRate totalMonths month st = (row, sample, st') ->
  sample = Some (mkChartPoint month 0 0).
Proof.
  intros Hlast Hbody.
  pose proof (report_month_final _ _ _ _ _ _ _ _ Hlast Hbody) as Hzero.
  unfold report_month in Hbody. injection Hbody as Hrow <- _.
  rewrite <- Hrow in Hzero. cbn [row_remainingPrincipal] in Hzero.
  pose proof Hlast as Hlast'. apply Qeq_bool_iff in Hlast'. rewrite Hlast' in *.
  rewrite orb_true_r. cbn [orb].
  assert (Hnone : Qlt_bool 0 (totalMonths - inject_Z month) = false).
  { apply Qlt_bool_false. lra. }
  rewrite Hnone. do 2 f_equal.
  apply Math_round_whole. exact Hzero.
Qed.

Lemma report_loop_last_sample (emi monthlyRate totalMonths : Q) (n : Z) :
  totalMonths == inject_Z n ->
  forall (fuel : nat) (month : Z) (st : ReportState) steps,
    (month <= n)%Z ->
    report_loop fuel emi monthlyRate totalMonths month st = Some steps ->
    exists front row,
      steps = front ++ [(row, Some (mkChartPoint n 0 0))].
Proof.
  intros Htotal.
  induction fuel as [|fuel IH]; intros month st steps Hmonth Hloop;
    cbn [report_loop] in Hloop; [discriminate|].
  rewrite month_le_total, Htotal, Qfloor_Z in Hloop.
  assert (Hle : (month <=? n)%Z = true) by (apply Z.leb_le; exact Hmonth).
  rewrite Hle in Hloop.
  destruct (report_month emi monthlyRate totalMonths month st)
    as [[row sample] st'] eqn:Hbody.
  destruct (report_loop fuel emi monthlyRate totalMonths (month + 1) st')
    as [rest|] eqn:Hrest; [|discriminate].
  injection Hloop as <-.
  destruct (Z.eq_dec month n) as [Heq | Hne].
  - assert (rest = []) as ->.
    { destruct fuel as [|fuel']; cbn [report_loop] in Hrest; [discriminate|].
      rewrite month_le_total, Htotal, Qfloor_Z in Hrest.
      assert (Hgt : (month + 1 <=? n)%Z = false) by (apply Z.leb_gt; lia).
      rewrite Hgt in Hrest. congruence. }
    subst month. exists [], row. cbn [app]. do 2 f_equal.
    apply (report_month_last_sample _ _ _ _ _ _ _ _
             (Qeq_sym _ _ Htotal) Hbody).
  - destruct (IH (month + 1)%Z st' rest) as (front & final & Hrows);
      [lia | exact Hrest |].
    exists ((row, sample) :: front), final. rewrite Hrows. reflexivity.
Qed.

(** X14.  The chart of a table ends where the loan ends: for a term of
    [n > 0] whole months the chart series of [generateReportTable] is not
    empty and its last sample is the month [n], with a remaining principal
    of 0 and a refinanced EMI of 0. *)
Theorem report_chart_ends_at_zero
    (fuel : nat) (principal emi monthlyRate totalMonths : Q) (n : Z) :
  (0 < n)%Z -> totalMonths == inject_Z n -> (Z.to_nat n < fuel)%nat ->
  exists report earlier,
    generateReportTable fuel principal emi monthlyRate totalMonths
    = Some report
    /\ report_chart report = earlier ++ [mkChartPoint n 0 0].
Proof.
  intros Hn Htotal Hfuel.
  destruct (report_table_rows_exist fuel principal emi monthlyRate
              totalMonths n Hn Htotal Hfuel) as (steps & Hsteps).
  destruct (report_loop_last_sample emi monthlyRate totalMonths n Htotal
              fuel 1 (mkReportState principal 0 0) steps)
    as (front & row & Hlast); [lia | exact Hsteps |].
  unfold generateReportTable. rewrite Hsteps.
  eexists. eexists. split; [reflexivity|]. cbn [report_chart].
  rewrite Hlast, flat_map_app. cbn. reflexivity.
Qed.

Lemma report_chart_ends_at_zero_witness :
  exists report earlier,
    generateReportTable 4 1000 400 (1 # 10) 3 = Some report
    /\ report_chart report = earlier ++ [mkChartPoint 3 0 0].
Proof.
  apply (report_chart_ends_at_zero 4 1000 400 (1 # 10) 3 3%Z);
    [lia | reflexivity | cbn; lia].
Defined.

(** ** The SIP tab *)

Lemma Math_round_nonneg (x : Q) : 0 <= x -> (0 <= Math_round x)%Z.
Proof.
  intros Hx. unfold Math_round.
  change 0%Z with (Qfloor 0). apply Qfloor_resp_le. lra.
Qed.

Section SipProperties.

Variable Math_pow : Q -> Q -> Q.
Hypothesis Math_pow_whole :
  forall (b e : Q) (n : Z),
    0 < b -> (0 <= n)%Z -> e == inject_Z n -> Math_pow b e == b ^ n.

(** Compound growth at a rate that is not negative never shrinks an
    amount. *)
Lemma growth_ge_1 (r : Q) (n : Z) :
  0 <= r -> (0 <= n)%Z -> 1 <= Math_pow (1 + r) (inject_Z n).
Proof.
  intros Hr Hn.
  rewrite (Math_pow_whole (1 + r) (inject_Z n) n) by (lra || lia || reflexivity).
  pose proof (growth_bernoulli r (Z.to_nat n) Hr) as Hb.
  rewrite Z2Nat.id in Hb by lia.
  assert (0 <= inject_Z n * r).
  { apply Qmult_le_0_compat; [|exact Hr].
    change 0 with (inject_Z 0). rewrite <- Zle_Qle. exact Hn. }
  lra.
Qed.

(** What [calculateTab4] has checked when it stores its data. *)
Lemma calculateTab4_data_stored
    (sipAmount1 sipRate1 sipYears1 sipMonths1 : option Q) (data : Tab4Data) :
  calculateTab4_data Math_pow sipAmount1 sipRate1 sipYears1 sipMonths1
  = Some data ->
  0 <= t4d_sipRate data /\ (0 <= t4d_totalMonths data)%Z.
Proof.
  unfold calculateTab4_data.
  destruct sipAmount1 as [sipAmount|]; [|discriminate].
  destruct sipRate1 as [sipRate|]; [|discriminate].
  destruct (calculateTab4 Math_pow (Some sipAmount) (Some sipRate)
              sipYears1 sipMonths1) as [res|] eqn:Hres; [|discriminate].
  intros Hdata. injection Hdata as <-. cbn [t4d_sipRate t4d_totalMonths].
  unfold calculateTab4 in Hres. revert Hres.
  case_le sipAmount 0; [discriminate|].
  case_lt sipRate 0; [discriminate|]. cbn [orb].
  case_le (or_zero sipYears1 + or_zero sipMonths1 / 12) 0; [discriminate|].
  intros Hres. injection Hres as <-. cbn [t4_totalMonths].
  split; [exact Hlt|]. apply Math_round_nonneg. lra.
Qed.

(** X16.  Adding an existing amount to a SIP adds exactly its own growth:
    on the data stored by [calculateTab4] and an existing amount [>= 0],
    [calculateWithExistingAmount] keeps the books balanced
    (returns = maturity - invested, with the amount as without it), the
    additional benefit is the maturity value of the existing amount alone,
    and that maturity value is at least the amount itself. *)
Theorem existing_amount_adds_its_own_growth
    (sipAmount1 sipRate1 sipYears1 sipMonths1 : option Q) (data : Tab4Data)
    (existingAmount : Q) :
  calculateTab4_data Math_pow sipAmount1 sipRate1 sipYears1 sipMonths1
  = Some data ->
  0 <= existingAmount ->
  exists res,
    calculateWithExistingAmount Math_pow (Some data) (Some existingAmount)
    = Some res
    /\ ex_withReturns res == ex_withMaturity res - ex_withInvested res
    /\ ex_withoutReturns res
       == ex_withoutMaturity res - ex_withoutInvested res
    /\ ex_additionalBenefit res == ex_existingMaturity res
    /\ existingAmount <= ex_existingMaturity res
    /\ ex_withoutMaturity res <= ex_withMaturity res.
Proof.
  intros Hdata Hexisting.
  destruct (calculateTab4_data_stored _ _ _ _ data Hdata) as [Hrate Hmonths].
  unfold calculateWithExistingAmount.
  case_lt existingAmount 0; [lra|].
  eexists. split; [reflexivity|].
  cbn [ex_existingMaturity ex_existingReturns ex_withoutInvested
       ex_withoutReturns ex_withoutMaturity ex_withInvested ex_withReturns
       ex_withMaturity ex_additionalBenefit].
  pose proof (growth_ge_1 (monthlyRate_of (t4d_sipRate data))
                (t4d_totalMonths data)
                (monthlyRate_of_nonneg _ Hrate) Hmonths) as Hgrow.
  set (g := Math_pow (1 + monthlyRate_of (t4d_sipRate data))
              (inject_Z (t4d_totalMonths data))) in *.
  assert (Hkeep : existingAmount * 1 <= existingAmount * g)
    by (apply Qmult_le_compat_left; assumption).
  conjuncts; try ring; lra.
Qed.

End SipProperties.

Lemma existing_amount_adds_its_own_growth_witness :
  exists data res,
    calculateTab4_data pow_int (Some 100) (Some 1200) (Some 1) None
    = Some data
    /\ calculateWithExistingAmount pow_int (Some data) (Some 500) = Some res
    /\ ex_withReturns res == ex_withMaturity res - ex_withInvested res
    /\ ex_withoutReturns res
       == ex_withoutMaturity res - ex_withoutInvested res
    /\ ex_additionalBenefit res == ex_existingMaturity res
    /\ 500 <= ex_existingMaturity res
    /\ ex_withoutMaturity res <= ex_withMaturity res.
Proof.
  eexists.
  destruct (existing_amount_adds_its_own_growth pow_int pow_int_whole
              (Some 100) (Some 1200) (Some 1) None _ 500
              eq_refl ltac:(discriminate))
    as (res & H).
  exists res. split; [reflexivity | exact H].
Defined.

Section ComparisonProperties.

Variable Math_pow : Q -> Q -> Q.

(** ** The SIP comparison *)

Lemma sip_compare_duration_rows (sipAmount sipRate totalYears : Q)
    (st : SipCompareState) (duration : Q) :
  map sip_duration
    (sipcmp_rows (sip_compare_duration Math_pow sipAmount sipRate totalYears
                    st duration))
  = map sip_duration (sipcmp_rows st)
    ++ filter (fun d => Qle_bool d totalYears) [duration]
  /\ (Forall (sip_row_computed Math_pow sipAmount sipRate) (sipcmp_rows st) ->
      Forall (sip_row_computed Math_pow sipAmount sipRate)
        (sipcmp_rows (sip_compare_duration Math_pow sipAmount sipRate
                        totalYears st duration))).
Proof.
  unfold sip_compare_duration. cbn [filter].
  destruct (Qle_bool duration totalYears); cbn [sipcmp_rows].
  - split; [rewrite map_app; reflexivity|].
    intros Hrows. apply Forall_app. split; [exact Hrows|].
    constructor; [|constructor]. repeat split.
  - split; [rewrite app_nil_r; reflexivity | auto].
Qed.

(** The callback keeps [bestOption] on the first maximum of the rows. *)
Lemma sip_compare_duration_invariant (sipAmount sipRate totalYears : Q)
    (st : SipCompareState) (duration : Q) :
  sip_comparison_invariant st ->
  sip_comparison_invariant
    (sip_compare_duration Math_pow sipAmount sipRate totalYears st duration).
Proof.
  intros Hinv. unfold sip_compare_duration.
  destruct (Qle_bool duration totalYears); [|exact Hinv].
  set (months := Math_round (duration * 12)).
  set (maturity := calculateSIPReturns Math_pow sipAmount sipRate
                     (inject_Z months)).
  set (invested := sipAmount * inject_Z months).
  set (returns := maturity - invested).
  destruct Hinv as [(Hrows & Hbest & Hmax)
                   | (best & (before & after & Hrows & Hbefore & Hafter)
                      & Hbest & Hmax)];
    rewrite Hmax, Hrows.
  - right.
    exists (mkSipRow duration months invested returns maturity true).
    split; [|split; reflexivity].
    exists [], []. cbn [app]. split; [reflexivity|]. split; constructor.
  - case_lt (sip_returns best) returns; right.
    + exists (mkSipRow duration months invested returns maturity true).
      split; [|split; reflexivity].
      exists (before ++ best :: after), []. cbn [sip_returns].
      split; [reflexivity|]. split; [|constructor].
      apply Forall_app. split.
      * eapply Forall_impl; [|exact Hbefore]. cbn beta. intros row Hrow. lra.
      * constructor; [exact Hlt|].
        eapply Forall_impl; [|exact Hafter]. cbn beta. intros row Hrow. lra.
    + exists best. cbn [sipcmp_rows sipcmp_bestOption sipcmp_maxReturns].
      split; [|split; [exact Hbest | reflexivity]].
      exists before, (after ++ [mkSipRow duration months invested returns
                                  maturity false]).
      split; [rewrite <- app_assoc; reflexivity|].
      split; [exact Hbefore|].
      apply Forall_app. split; [exact Hafter|].
      constructor; [exact Hlt | constructor].
Qed.

Lemma sip_compare_durations_fold (sipAmount sipRate totalYears : Q)
    (durations : list Q) :
  forall st,
    let final :=
      fold_left (sip_compare_duration Math_pow sipAmount sipRate totalYears)
        durations st in
    map sip_duration (sipcmp_rows final)
    = map sip_duration (sipcmp_rows st)
      ++ filter (fun d => Qle_bool d totalYears) durations
    /\ (Forall (sip_row_computed Math_pow sipAmount sipRate)
          (sipcmp_rows st) ->
        Forall (sip_row_computed Math_pow sipAmount sipRate)
          (sipcmp_rows final))
    /\ (sip_comparison_invariant st -> sip_comparison_invariant final).
Proof.
  induction durations as [|d durations IH]; intros st; cbn [fold_left filter].
  - rewrite app_nil_r. auto.
  - destruct (IH (sip_compare_duration Math_pow sipAmount sipRate totalYears
                    st d)) as (Hrows & Hcomputed & Hinv).
    destruct (sip_compare_duration_rows sipAmount sipRate totalYears st d)
      as (Hrows1 & Hcomputed1).
    cbn zeta in *. split; [|split].
    + rewrite Hrows, Hrows1, <- app_assoc. f_equal.
      cbn [filter]. destruct (Qle_bool d totalYears); reflexivity.
    + auto.
    + intros H. apply Hinv. apply sip_compare_duration_invariant. exact H.
Qed.

(** X17.  The SIP comparison recommends the first duration with the greatest
    returns.  On valid input the table of [calculateTab4] has one row for
    each candidate (5, 10, 15, 20, 25 years and the selected duration) that
    is at most the selected duration, in ascending order; each row carries
    the returns [maturity - invested] of its rounded month count; and
    [bestOption] is the first row with the greatest returns: every earlier
    row has strictly smaller returns, every later row at most as much. *)
Theorem sip_comparison_selects_first_maximum
    (sipAmount sipRate : Q) (sipYears1 sipMonths1 : option Q)
    (rows : list SipRow) (bestOption : option SipBest) :
  calculateTab4_comparison Math_pow (Some sipAmount) (Some sipRate)
    sipYears1 sipMonths1 = Some (rows, bestOption) ->
  let totalYears := or_zero sipYears1 + or_zero sipMonths1 / 12 in
  map sip_duration rows
  = filter (fun d => Qle_bool d totalYears) (candidate_durations totalYears)
  /\ StronglySorted Qle (map sip_duration rows)
  /\ Forall (sip_row_computed Math_pow sipAmount sipRate) rows
  /\ exists best,
       bestOption = Some (as_sip_best best)
       /\ first_maximum rows best.
Proof.
  cbn zeta. unfold calculateTab4_comparison.
  destruct (Qle_bool sipAmount 0 || Qlt_bool sipRate 0); [discriminate|].
  set (totalYears := or_zero sipYears1 + or_zero sipMonths1 / 12).
  destruct (Qle_bool totalYears 0); [discriminate|].
  intros Hres. injection Hres as <- <-.
  destruct (sip_compare_durations_fold sipAmount sipRate totalYears
              (candidate_durations totalYears)
              (mkSipCompareState [] None None))
    as (Hrows & Hcomputed & Hinv).
  cbn zeta in *. cbn [sipcmp_rows map app] in Hrows.
  set (final := fold_left
                  (sip_compare_duration Math_pow sipAmount sipRate totalYears)
                  (candidate_durations totalYears)
                  (mkSipCompareState [] None None)) in *.
  conjuncts.
  - exact Hrows.
  - rewrite Hrows. apply filter_sorted, sort_asc_sorted.
  - apply Hcomputed. constructor.
  - destruct Hinv as [(Hempty & _) | (best & Hfirst & Hbest & _)];
      [left; cbn; auto | |].
    + exfalso. destruct (candidate_durations_selected totalYears)
        as (d & Hin & Heq).
      assert (Hd : In d (map sip_duration (sipcmp_rows final))).
      { rewrite Hrows, filter_In, Qle_bool_iff. split; [exact Hin | lra]. }
      rewrite Hempty in Hd. exact Hd.
    + exists best. split; assumption.
Qed.

End ComparisonProperties.

Lemma sip_comparison_selects_first_maximum_witness :
  exists rows bestOption,
    calculateTab4_comparison pow_int (Some 100) (Some 12) (Some 10) None
    = Some (rows, bestOption)
    /\ map sip_duration rows
       = filter (fun d => Qle_bool d (10 + 0 / 12))
           (candidate_durations (10 + 0 / 12))
    /\ Forall (sip_row_computed pow_int 100 12) rows
    /\ exists best,
         bestOption = Some (as_sip_best best)
         /\ first_maximum rows best.
Proof.
  eexists. eexists. split; [reflexivity|].
  destruct (sip_comparison_selects_first_maximum pow_int 100 12
              (Some 10) None _ _ eq_refl)
    as (Hrows & _ & Hcomputed & Hbest).
  conjuncts; [exact Hrows | exact Hcomputed | exact Hbest].
Defined.

Section RecommendationProperties.

Variable Math_pow : Q -> Q -> Q.
Hypothesis Math_pow_whole :
  forall (b e : Q) (n : Z),
    0 < b -> (0 <= n)%Z -> e == inject_Z n -> Math_pow b e == b ^ n.

(** ** The recommended duration *)





End RecommendationProperties.


(** ** The columns of the amortization table *)

Lemma report_loop_bookkeeping (emi monthlyRate totalMonths : Q) :
  0 <= monthlyRate ->
  forall (fuel : nat) (month : Z) (st : ReportState) steps,
    0 <= remainingPrincipal st ->
    0 <= totalInterestPaid st ->
    report_loop fuel emi monthlyRate totalMonths month st = Some steps ->
    interest_carried_forward (totalInterestPaid st) (map fst steps)
    /\ Forall (fun row =>
                 0 <= row_interestPayment row
                 /\ (~ inject_Z (row_month row) == totalMonths ->
                     row_interestPayment row + row_principalPayment row
                     == row_emi row))
         (map fst steps).
Proof.
  intros Hr.
  induction fuel as [|fuel IH]; intros month st steps Hb Ht Hloop;
    cbn [report_loop] in Hloop; [discriminate|].
  destruct (Qle_bool (inject_Z month) totalMonths).
  2:{ injection Hloop as <-. split; constructor. }
  destruct (report_month emi monthlyRate totalMonths month st)
    as [[row sample] st'] eqn:Hbody.
  destruct (report_loop fuel emi monthlyRate totalMonths (month + 1) st')
    as [rest|] eqn:Hrest; [|discriminate].
  injection Hloop as <-.
  assert (Hinterest : 0 <= remainingPrincipal st * monthlyRate)
    by (apply Qmult_le_0_compat; assumption).
  unfold report_month in Hbody. injection Hbody as Hrow _ Hst'.
  destruct (IH (month + 1)%Z st' rest) as (Hcarried & Hsplit);
    [rewrite <- Hst'; cbn [remainingPrincipal]; apply Math_max_0_nonneg
    | rewrite <- Hst'; cbn [totalInterestPaid]; lra
    | exact Hrest |].
  cbn [map fst interest_carried_forward]. rewrite <- Hrow.
  cbn [row_priorInterest row_interestPayment row_principalPayment row_emi
       row_month].
  split; [split|].
  - unfold Math_max.
    case_le 0 (totalInterestPaid st + remainingPrincipal st * monthlyRate
               - remainingPrincipal st * monthlyRate); lra.
  - rewrite <- Hst' in Hcarried. cbn [totalInterestPaid] in Hcarried.
    exact Hcarried.
  - constructor; [|exact Hsplit].
    cbn [row_interestPayment row_principalPayment row_emi row_month].
    split; [exact Hinterest|]. intros Hnotlast.
    apply Qeq_bool_false in Hnotlast. rewrite Hnotlast. ring.
Qed.

(** X19.  The table keeps its books.  For a principal and a rate that are
    not negative, in every table of [generateReportTable] the last column
    starts at zero and carries on each row the interest paid on the rows
    above it (this month's interest not yet included); no row pays negative
    interest; and every row but the one of the last month splits the
    payment exactly: interest + principal = emi. *)
Theorem report_table_keeps_its_books
    (fuel : nat) (principal emi monthlyRate totalMonths : Q) (report : Report) :
  0 <= principal -> 0 <= monthlyRate ->
  generateReportTable fuel principal emi monthlyRate totalMonths
  = Some report ->
  interest_carried_forward 0 (report_rows report)
  /\ Forall (fun row =>
               0 <= row_interestPayment row
               /\ (~ inject_Z (row_month row) == totalMonths ->
                   row_interestPayment row + row_principalPayment row
                   == row_emi row))
       (report_rows report).
Proof.
  intros Hp Hr. unfold generateReportTable.
  destruct (report_loop fuel emi monthlyRate totalMonths 1
              (mkReportState principal 0 0)) as [steps|] eqn:Hsteps;
    [|discriminate].
  intros Hreport. injection Hreport as <-. cbn [report_rows].
  apply (report_loop_bookkeeping emi monthlyRate totalMonths Hr fuel 1
           (mkReportState principal 0 0) steps);
    cbn [remainingPrincipal totalInterestPaid]; try lra. exact Hsteps.
Qed.

Lemma report_table_keeps_its_books_witness :
  exists report,
    generateReportTable 4 1000 400 (1 # 10) 3 = Some report
    /\ interest_carried_forward 0 (report_rows report)
    /\ Forall (fun row =>
                 0 <= row_interestPayment row
                 /\ (~ inject_Z (row_month row) == 3 ->
                     row_interestPayment row + row_principalPayment row
                     == row_emi row))
         (report_rows report).
Proof.
  eexists. split; [reflexivity|].
  apply (report_table_keeps_its_books 4 1000 400 (1 # 10) 3 _
           ltac:(discriminate) ltac:(discriminate) eq_refl).
Defined.

Section BreakdownProperties.

Variable Math_pow : Q -> Q -> Q.
Hypothesis Math_pow_whole :
  forall (b e : Q) (n : Z),
    0 < b -> (0 <= n)%Z -> e == inject_Z n -> Math_pow b e == b ^ n.

(** ** The summary of the EMI tab *)

(** Two durations of the same whole number of months get the same EMI. *)
Lemma calculateEMI_same_months
    (principal annualRate years1 years2 : Q) (k : Z) :
  0 < principal -> 0 <= annualRate -> (0 < k)%Z ->
  numberOfMonths years1 == inject_Z k ->
  numberOfMonths years2 == inject_Z k ->
  calculateEMI Math_pow principal annualRate years1
  == calculateEMI Math_pow principal annualRate years2.
Proof.
  intros Hp Hrate Hk Hm1 Hm2.
  assert (Hc : 0 < inject_Z k) by (apply inject_Z_pos; exact Hk).
  case_eq_q annualRate 0.
  - rewrite !(calculateEMI_zero_rate Math_pow)
      by (assumption || (unfold numberOfMonths in *; lra)).
    rewrite Hm1, Hm2. reflexivity.
  - rewrite (calculateEMI_annuity Math_pow Math_pow_whole principal
               annualRate years1 k) by (assumption || lra).
    rewrite (calculateEMI_annuity Math_pow Math_pow_whole principal
               annualRate years2 k) by (assumption || lra).
    reflexivity.
Qed.

(** The row of the selected duration carries the interest of the summary. *)
Lemma selected_row_interest (principal interest totalYears d : Q) :
  0 < principal -> 0 <= interest ->
  In d [5; 10; 15; 20; 25] \/ d = totalYears ->
  d == totalYears ->
  calculateTotalInterest principal
    (calculateEMI Math_pow principal interest d) d
  == calculateTotalInterest principal
       (calculateEMI Math_pow principal interest totalYears) totalYears.
Proof.
  intros Hp Hrate Hsource Heq.
  destruct Hsource as [Hbase | ->]; [|reflexivity].
  assert (Hwhole : exists k : Z, (0 < k)%Z /\ numberOfMonths d == inject_Z k).
  { destruct Hbase as [<- | [<- | [<- | [<- | [<- | []]]]]];
      [exists 60%Z | exists 120%Z | exists 180%Z | exists 240%Z
      | exists 300%Z]; split; (lia || reflexivity). }
  destruct Hwhole as (k & Hk & Hmonths).
  assert (Hmonths' : numberOfMonths totalYears == inject_Z k).
  { unfold numberOfMonths in *. rewrite <- Heq. exact Hmonths. }
  unfold calculateTotalInterest.
  rewrite (calculateEMI_same_months principal interest d totalYears k)
    by assumption.
  rewrite Heq. reflexivity.
Qed.

(** X20.  What the EMI tab displays adds up.  On valid input, the average
    principal per month is the principal spread over the months, the two
    averages sum to the EMI, the total amount is the EMI times the months,
    and the saving against the selected duration - the least interest of
    the table minus the interest of the selected duration - exists and is
    never positive (the page displays its absolute value). *)
Theorem tab1_summary_adds_up
    (principal interest : Q) (years1 months1 : option Q) (res : Tab1Result) :
  calculateTab1 Math_pow (Some principal) (Some interest) years1 months1
  = Some res ->
  let totalYears := or_zero years1 + or_zero months1 / 12 in
  t1_avgPrincipalPerMonth res == principal / (totalYears * 12)
  /\ t1_avgInterestPerMonth res + t1_avgPrincipalPerMonth res == t1_emi res
  /\ t1_totalAmount res == t1_emi res * totalYears * 12
  /\ exists best saving,
       t1_bestOption res = Some best
       /\ t1_savingsVsSelected res = Some saving
       /\ saving == best_interest best - t1_totalInterest res
       /\ saving <= 0.
Proof.
  cbn zeta. unfold calculateTab1.
  case_le principal 0; [discriminate|].
  case_lt interest 0; [discriminate|]. cbn [orb].
  set (totalYears := or_zero years1 + or_zero months1 / 12).
  case_le totalYears 0; [discriminate|].
  intros Hres. injection Hres as <-.
  cbn [t1_avgPrincipalPerMonth t1_avgInterestPerMonth t1_emi t1_totalAmount
       t1_bestOption t1_savingsVsSelected t1_totalInterest].
  destruct (compare_durations_fold Math_pow principal interest totalYears
              (candidate_durations totalYears) (mkCompareState [] None None))
    as (Hrows & Hcomputed & Hinv).
  cbn zeta in *. cbn [cmp_rows map app] in Hrows.
  set (final := fold_left
                  (compare_duration Math_pow principal interest totalYears)
                  (candidate_durations totalYears)
                  (mkCompareState [] None None)) in *.
  set (emi := calculateEMI Math_pow principal interest totalYears) in *.
  conjuncts; try (unfold calculateTotalInterest; field; lra).
  destruct (candidate_durations_selected totalYears) as (d & Hin & Heq).
  assert (Hd : In d (map dur_duration (cmp_rows final))).
  { rewrite Hrows, filter_In, Qle_bool_iff. split; [exact Hin | lra]. }
  destruct Hinv as [(Hempty & _) | (best & Hfirst & Hbest & Hmin)];
    [left; cbn; auto | rewrite Hempty in Hd; contradiction |].
  rewrite Hbest, Hmin. exists (as_best best). eexists.
  split; [reflexivity|]. split; [reflexivity|].
  cbn [as_best best_interest]. split; [unfold calculateTotalInterest; ring|].
  apply in_map_iff in Hd. destruct Hd as (row & Hduration & Hrow).
  assert (Hrowint : dur_interest row
                    == calculateTotalInterest principal emi totalYears).
  { specialize (Hcomputed (Forall_nil _)).
    rewrite Forall_forall in Hcomputed.
    destruct (Hcomputed row Hrow) as [Hemi Hint].
    rewrite Hint, Hemi, Hduration.
    apply (selected_row_interest principal interest totalYears d);
      try assumption.
    unfold candidate_durations in Hin.
    apply (Permutation_in _ (sort_asc_perm _)) in Hin.
    destruct (includes [5; 10; 15; 20; 25] totalYears); [left; exact Hin|].
    apply in_app_or in Hin. destruct Hin as [H | [H | []]]; auto. }
  assert (Hleast : dur_interest best <= dur_interest row).
  { destruct Hfirst as (before & after & Htable & Hbefore & Hafter).
    rewrite Htable in Hrow. apply in_app_or in Hrow.
    rewrite Forall_forall in Hbefore, Hafter.
    destruct Hrow as [H | [<- | H]].
    - apply Qlt_le_weak, Hbefore, H.
    - apply Qle_refl.
    - apply Hafter, H. }
  unfold calculateTotalInterest in Hrowint. lra.
Qed.

End BreakdownProperties.

Lemma tab1_summary_adds_up_witness :
  exists res,
    calculateTab1 pow_int (Some 1000) (Some 12) (Some 10) None = Some res
    /\ t1_avgPrincipalPerMonth res == 1000 / ((10 + 0 / 12) * 12)
    /\ t1_avgInterestPerMonth res + t1_avgPrincipalPerMonth res == t1_emi res
    /\ t1_totalAmount res == t1_emi res * (10 + 0 / 12) * 12
    /\ exists best saving,
         t1_bestOption res = Some best
         /\ t1_savingsVsSelected res = Some saving
         /\ saving == best_interest best - t1_totalInterest res
         /\ saving <= 0.
Proof.
  eexists. split; [reflexivity|].
  apply (tab1_summary_adds_up pow_int pow_int_whole 1000 12 (Some 10) None _
           eq_refl).
Defined.

(** A rounded amount that is positive comes from a positive amount. *)
Lemma Math_round_pos (x : Q) : 0 < inject_Z (Math_round x) -> 0 < x.
Proof.
  unfold Math_round. intros Hpos.
  apply (proj1 (inject_Z_pos _)) in Hpos.
  pose proof (Qfloor_le (x + (1 # 2))) as Hfloor.
  assert (H1 : inject_Z 1 <= inject_Z (Qfloor (x + (1 # 2)))).
  { rewrite <- Zle_Qle. lia. }
  change (inject_Z 1) with 1 in H1. lra.
Qed.

Section HandOffProperties.

Variable Math_pow : Q -> Q -> Q.
Hypothesis Math_pow_whole :
  forall (b e : Q) (n : Z),
    0 < b -> (0 <= n)%Z -> e == inject_Z n -> Math_pow b e == b ^ n.

(** ** The hand-off to the remaining-loan tab *)

(** X21.  The hand-off from the EMI tab refuses interest-free loans and
    otherwise hands over the EMI rounded to a whole amount.  On the data
    stored by [calculateTab1]: at a rate of zero, and when the stored EMI is
    the zero of the EMI solver, [navigateToRemainingLoanWithData] raises its
    alert; at a positive rate, when the rounded EMI exceeds the first
    month's interest, it pre-fills the principal, the rate and the rounded
    EMI and displays a month count between 1 and 600. *)
Theorem hand_off_of_calculated_loan (fuel : nat)
    (principal1 interest1 years1 months1 : option Q) (data : Tab1Data) :
  calculateTab1_data Math_pow principal1 interest1 years1 months1 = Some data ->
  (600 < fuel)%nat ->
  (td_annualRate data == 0 ->
   navigateToRemainingLoanWithData fuel (Some data) = Alerted)
  /\ (td_emi data == 0 ->
      navigateToRemainingLoanWithData fuel (Some data) = Alerted)
  /\ (0 < td_annualRate data ->
      td_principal data * monthlyRate_of (td_annualRate data)
      < inject_Z (Math_round (td_emi data)) ->
      exists m : Z,
        navigateToRemainingLoanWithData fuel (Some data)
        = Shown (mkHandOff (td_principal data) (td_annualRate data)
                   (Math_round (td_emi data)) (Some (Months m)))
        /\ (1 <= m <= 600)%Z).
Proof.
  intros Hdata Hfuel.
  destruct (calculateTab1_data_stored Math_pow _ _ _ _ data Hdata)
    as (_ & _ & _ & _ & Hp & Hrate & _).
  unfold navigateToRemainingLoanWithData, falsy. conjuncts.
  - intros Hzero. apply Qeq_bool_iff in Hzero. rewrite Hzero.
    rewrite orb_true_r. reflexivity.
  - intros Hzero. apply Qeq_bool_iff in Hzero. rewrite Hzero.
    rewrite orb_true_r. reflexivity.
  - intros Hpos Hcov.
    pose proof (monthlyRate_of_pos _ Hpos) as Hr.
    assert (Hround : 0 < inject_Z (Math_round (td_emi data))).
    { apply Qlt_trans with
        (td_principal data * monthlyRate_of (td_annualRate data));
        [apply Qmult_lt_0_compat; assumption | exact Hcov]. }
    pose proof (Math_round_pos _ Hround) as Hemi.
    case_eq_q (td_principal data) 0; [lra|].
    case_eq_q (td_annualRate data) 0; [lra|].
    case_eq_q (td_emi data) 0; [lra|]. cbn [orb].
    unfold calculateRemainingLoanBasic, falsy.
    case_eq_q (td_principal data) 0; [lra|].
    case_eq_q (td_annualRate data) 0; [lra|].
    case_eq_q (inject_Z (Math_round (td_emi data))) 0; [lra|]. cbn [orb].
    destruct (months_to_close_loop_spec fuel (td_principal data)
                (monthlyRate_of (td_annualRate data))
                (inject_Z (Math_round (td_emi data))))
      as (m & Hres & Hrange & _); try assumption.
    rewrite Hres. exists (Z.of_nat m). split; [reflexivity | lia].
Qed.

End HandOffProperties.

Lemma hand_off_of_calculated_loan_witness :
  exists (data : Tab1Data) (m : Z),
    calculateTab1_data pow_int (Some 1000) (Some 12) (Some 1) None = Some data
    /\ navigateToRemainingLoanWithData 601 (Some data)
       = Shown (mkHandOff (td_principal data) (td_annualRate data)
                  (Math_round (td_emi data)) (Some (Months m)))
    /\ (1 <= m <= 600)%Z.
Proof.
  eexists.
  destruct (proj2 (proj2 (hand_off_of_calculated_loan pow_int 601
                            (Some 1000) (Some 12) (Some 1) None _
                            eq_refl ltac:(lia)))
              ltac:(reflexivity) ltac:(vm_compute; reflexivity))
    as (m & H).
  exists m. split; [reflexivity | exact H].
Defined.

(** ** The table and the remaining balance *)

Lemma Math_max_0_spec (x : Q) :
  (0 <= x -> Math_max 0 x == x) /\ (x <= 0 -> Math_max 0 x == 0).
Proof.
  unfold Math_max. case_le 0 x; split; intros; lra.
Qed.

Lemma Math_max_0_compat (x y : Q) : x == y -> Math_max 0 x == Math_max 0 y.
Proof.
  intros Hxy.
  destruct (Qlt_le_dec x 0) as [Hneg | Hpos].
  - rewrite (proj2 (Math_max_0_spec x)), (proj2 (Math_max_0_spec y)) by lra.
    reflexivity.
  - rewrite (proj1 (Math_max_0_spec x)), (proj1 (Math_max_0_spec y)) by lra.
    exact Hxy.
Qed.

Lemma clamped_step_compat (r emi b b' : Q) :
  b == b' ->
  Math_max 0 (close_step r emi b) == Math_max 0 (close_step r emi b').
Proof.
  intros Hb. apply Math_max_0_compat. unfold close_step. rewrite Hb.
  reflexivity.
Qed.

Lemma clamped_balance_succ (r emi b : Q) (k : nat) :
  clamped_balance_after r emi b (S k)
  = Math_max 0 (close_step r emi (clamped_balance_after r emi b k)).
Proof.
  reflexivity.
Qed.

Lemma clamped_balance_compat (r emi b b' : Q) (k : nat) :
  b == b' ->
  clamped_balance_after r emi b k == clamped_balance_after r emi b' k.
Proof.
  intros Hb. induction k as [|k IH]; [exact Hb|].
  rewrite !clamped_balance_succ. apply clamped_step_compat. exact IH.
Qed.

Lemma clamped_balance_shift (r emi b : Q) (k : nat) :
  clamped_balance_after r emi b (S k)
  = clamped_balance_after r emi (Math_max 0 (close_step r emi b)) k.
Proof.
  unfold clamped_balance_after.
  exact (Nat.iter_succ_r k Q (fun b0 => Math_max 0 (close_step r emi b0)) b).
Qed.

(** Once the balance is zero it stays zero, the payment not being
    negative. *)
Lemma clamped_balance_stays_zero (r emi b : Q) (k : nat) :
  0 <= emi -> b == 0 -> clamped_balance_after r emi b k == 0.
Proof.
  intros Hemi Hb. induction k as [|k IH]; [exact Hb|].
  rewrite clamped_balance_succ.
  set (c := clamped_balance_after r emi b k) in *. clearbody c.
  apply (proj2 (Math_max_0_spec _)). unfold close_step.
  assert (Hcr : c * r == 0) by (rewrite IH; ring).
  lra.
Qed.

(** The balance column of the table is the clamped balance. *)
Lemma report_loop_clamped (emi monthlyRate totalMonths : Q) :
  forall (fuel : nat) (month : Z) (st : ReportState) steps,
    report_loop fuel emi monthlyRate totalMonths month st = Some steps ->
    Forall (fun row =>
              (month <= row_month row)%Z
              /\ (~ inject_Z (row_month row) == totalMonths ->
                  row_remainingPrincipal row
                  == clamped_balance_after monthlyRate emi
                       (remainingPrincipal st)
                       (Z.to_nat (row_month row - month + 1))))
      (map fst steps).
Proof.
  induction fuel as [|fuel IH]; intros month st steps Hloop;
    cbn [report_loop] in Hloop; [discriminate|].
  destruct (Qle_bool (inject_Z month) totalMonths).
  2:{ injection Hloop as <-. constructor. }
  destruct (report_month emi monthlyRate totalMonths month st)
    as [[row sample] st'] eqn:Hbody.
  destruct (report_loop fuel emi monthlyRate totalMonths (month + 1) st')
    as [rest|] eqn:Hrest; [|discriminate].
  injection Hloop as <-. cbn [map fst].
  pose proof (IH _ _ _ Hrest) as Hrows.
  unfold report_month in Hbody. injection Hbody as Hrow _ Hst'.
  constructor.
  - rewrite <- Hrow. cbn [row_month row_remainingPrincipal].
    split; [lia|]. intros Hnotlast.
    apply Qeq_bool_false in Hnotlast. rewrite Hnotlast.
    replace (Z.to_nat (month - month + 1)) with 1%nat by lia.
    apply Math_max_0_compat. unfold close_step. ring.
  - case_eq_q (inject_Z month) totalMonths.
    + assert (rest = []) as ->; [|constructor].
      destruct fuel as [|fuel']; cbn [report_loop] in Hrest; [discriminate|].
      assert (Hgt : Qle_bool (inject_Z (month + 1)) totalMonths = false).
      { apply Qle_bool_false. rewrite inject_Z_plus, <- Heq.
        change (inject_Z 1) with 1. lra. }
      rewrite Hgt in Hrest. congruence.
    + eapply Forall_impl; [|exact Hrows]. cbn beta.
      intros later [Hmonth Hbalance]. split; [lia|].
      intros Hnotlast. rewrite (Hbalance Hnotlast).
      replace (Z.to_nat (row_month later - month + 1))
        with (S (Z.to_nat (row_month later - (month + 1) + 1))) by lia.
      rewrite clamped_balance_shift.
      apply clamped_balance_compat.
      rewrite <- Hst'. cbn [remainingPrincipal].
      apply Math_max_0_compat. unfold close_step. ring.
Qed.

(** At a rate of zero the clamped balance is the principal less the
    payments, cut off at zero. *)
Lemma clamped_balance_zero_rate (r emi principal : Q) (j : nat) :
  r == 0 -> 0 <= emi ->
  clamped_balance_after r emi principal (S j)
  == Math_max 0 (principal - emi * inject_Z (Z.of_nat (S j))).
Proof.
  intros Hr Hemi. induction j as [|j IH].
  - unfold clamped_balance_after. cbn [Nat.iter].
    apply Math_max_0_compat. unfold close_step. rewrite Hr.
    change (inject_Z (Z.of_nat 1)) with 1. ring.
  - rewrite clamped_balance_succ.
    pose proof (inject_nat_succ (S j)) as Hc.
    set (c := inject_Z (Z.of_nat (S j))) in *.
    set (b := clamped_balance_after r emi principal (S j)) in *.
    clearbody b c.
    apply Qeq_trans with (Math_max 0 (principal - emi * (c + 1)));
      [|apply Math_max_0_compat; rewrite Hc; reflexivity].
    assert (Hstep : close_step r emi b == b - emi).
    { unfold close_step. rewrite Hr. ring. }
    apply Qeq_trans with (Math_max 0 (b - emi));
      [apply Math_max_0_compat; exact Hstep|].
    destruct (Qlt_le_dec (principal - emi * c) 0) as [Hneg | Hpos].
    + rewrite (proj2 (Math_max_0_spec (principal - emi * c))) in IH by lra.
      rewrite (proj2 (Math_max_0_spec (b - emi))) by lra.
      rewrite (proj2 (Math_max_0_spec (principal - emi * (c + 1)))) by lra.
      reflexivity.
    + rewrite (proj1 (Math_max_0_spec (principal - emi * c))) in IH by lra.
      apply Math_max_0_compat. rewrite IH. ring.
Qed.

(** The loop of [calculateRemainingLoan] computes the clamped balance. *)
Lemma remaining_loop_clamped (r emi : Q) (total : Z) :
  0 <= emi ->
  forall (d fuel : nat) (i : Z) (remaining : Q),
    (S d < fuel)%nat -> (i + Z.of_nat (S d) = total)%Z ->
    exists v,
      remaining_loop fuel r emi (inject_Z total) i remaining = Some v
      /\ v == clamped_balance_after r emi remaining (S d).
Proof.
  intros Hemi.
  induction d as [|d IH]; intros fuel i remaining Hfuel Hi;
    (destruct fuel as [|fuel]; [lia|]); cbn [remaining_loop];
    rewrite index_lt_months, Qceiling_Z;
    (assert (Hlt : (i <? total)%Z = true) by (apply Z.ltb_lt; lia));
    rewrite Hlt; rewrite clamped_balance_shift;
    change (remaining + remaining * r - emi)
      with (close_step r emi remaining);
    case_le (close_step r emi remaining) 0.
  - exists 0. split; [reflexivity|]. symmetry.
    apply (proj2 (Math_max_0_spec _)). exact Hle.
  - destruct fuel as [|fuel]; [lia|]. cbn [remaining_loop].
    rewrite index_lt_months, Qceiling_Z.
    assert (Hge : (i + 1 <? total)%Z = false) by (apply Z.ltb_ge; lia).
    rewrite Hge. eexists. split; [reflexivity|]. reflexivity.
  - exists 0. split; [reflexivity|]. symmetry.
    apply clamped_balance_stays_zero; [exact Hemi|].
    apply (proj2 (Math_max_0_spec _)). exact Hle.
  - destruct (IH fuel (i + 1)%Z (close_step r emi remaining))
      as (v & Hv & Hclamped); try lia.
    exists v. split; [exact Hv|]. rewrite Hclamped.
    apply clamped_balance_compat. symmetry.
    apply (proj1 (Math_max_0_spec _)). lra.
Qed.

Lemma remaining_loan_clamped (fuel : nat) (principal r emi : Q) (k : Z) :
  0 <= emi -> (1 <= k)%Z -> (Z.to_nat k < fuel)%nat ->
  exists v,
    calculateRemainingLoan fuel principal r emi (inject_Z k) = Some v
    /\ v == clamped_balance_after r emi principal (Z.to_nat k).
Proof.
  intros Hemi Hk Hfuel. unfold calculateRemainingLoan.
  destruct (Z.to_nat k) as [|d] eqn:Hd; [lia|].
  case_eq_q r 0.
  - eexists. split; [reflexivity|].
    rewrite (clamped_balance_zero_rate r emi principal d Heq Hemi).
    rewrite <- Hd, Z2Nat.id by lia. reflexivity.
  - apply remaining_loop_clamped; [exact Hemi | exact Hfuel | lia].
Qed.

(** X22.  The table and [calculateRemainingLoan] tell the same story: for a
    payment that is not negative and a term of [n > 0] whole months, the
    remaining principal on every row of [generateReportTable] before the
    last month is the balance [calculateRemainingLoan] returns for that
    number of months. *)
Theorem table_balance_is_remaining_loan
    (fuel : nat) (principal emi monthlyRate totalMonths : Q) (n : Z) :
  0 <= emi -> (0 < n)%Z -> totalMonths == inject_Z n ->
  (Z.to_nat n < fuel)%nat ->
  exists report,
    generateReportTable fuel principal emi monthlyRate totalMonths
    = Some report
    /\ Forall (fun row =>
                 (row_month row < n)%Z ->
                 exists v,
                   calculateRemainingLoan fuel principal monthlyRate emi
                     (inject_Z (row_month row)) = Some v
                   /\ row_remainingPrincipal row == v)
         (report_rows report).
Proof.
  intros Hemi Hn Htotal Hfuel.
  destruct (report_table_rows_exist fuel principal emi monthlyRate
              totalMonths n Hn Htotal Hfuel) as (steps & Hsteps).
  unfold generateReportTable. rewrite Hsteps.
  eexists. split; [reflexivity|]. cbn [report_rows].
  pose proof (report_loop_clamped emi monthlyRate totalMonths fuel 1
                (mkReportState principal 0 0) steps Hsteps) as Hrows.
  eapply Forall_impl; [|exact Hrows]. cbn beta.
  intros row [Hmonth Hbalance] Hbefore.
  cbn [remainingPrincipal] in Hbalance.
  destruct (remaining_loan_clamped fuel principal monthlyRate emi
              (row_month row) Hemi Hmonth ltac:(lia)) as (v & Hv & Hclamped).
  exists v. split; [exact Hv|].
  rewrite Hclamped, Hbalance.
  - replace (Z.to_nat (row_month row - 1 + 1)) with (Z.to_nat (row_month row))
      by lia. reflexivity.
  - rewrite Htotal, inject_Z_injective. lia.
Qed.

Lemma table_balance_is_remaining_loan_witness :
  exists report,
    generateReportTable 4 1000 400 (1 # 10) 3 = Some report
    /\ Forall (fun row =>
                 (row_month row < 3)%Z ->
                 exists v,
                   calculateRemainingLoan 4 1000 (1 # 10) 400
                     (inject_Z (row_month row)) = Some v
                   /\ row_remainingPrincipal row == v)
         (report_rows report).
Proof.
  apply (table_balance_is_remaining_loan 4 1000 400 (1 # 10) 3 3%Z);
    [discriminate | lia | reflexivity | cbn; lia].
Defined.
